(** * image-fit: the geometry and search code of the image tools

    Shallow embedding of the numeric code of the four tools:

    - [Compressor]: [compressToTargetSize] (CompressImage page), the
      bisection on the encoder quality;
    - [Fit]: [processImage], [getCanvasDimensions], [detectOrientation]
      (processor module), the scale-to-fit geometry;
    - [Resampler]: the step-down loop of [resizeImage] (ResizeImage page);
    - [Crop]: [handlePresetChange], [handleRotate], [handleMouseDown],
      [handleMouseMove], [handleMouseUp], the crop-initialising effect
      and the canvas sizing of [handleCropAndDownload] (CropImage page).

    Number model.  A JavaScript [number] that holds a length, a
    coordinate, a ratio or a quality is a rational [Q]: the four
    operations are exact, [Math.max], [Math.min], [Math.round] and
    [Math.floor] are the functions below.  The rounding of IEEE-754
    doubles, infinities and NaN are outside this model.  Values that the
    DOM keeps as integers ([naturalWidth], [canvas.width], [blob.size],
    the rotation in degrees) are [Z] or [N]. *)

From Stdlib Require Import Ascii String.
From Stdlib Require Import ZArith NArith QArith Qround Qabs Qminmax Lqa Lia List Bool.
From Equations Require Import Equations.
Import ListNotations.

Open Scope Q_scope.

(** ** JavaScript arithmetic on rationals *)

Module Js.

(** [a < b] as the boolean the source branches on. *)
Definition ltb (a b : Q) : bool :=
  match a ?= b with Lt => true | _ => false end.

(** [a > b]. *)
Definition gtb (a b : Q) : bool := ltb b a.

(** [Math.max(a, b)]. *)
Definition Math_max (a b : Q) : Q := if ltb a b then b else a.

(** [Math.min(a, b)]. *)
Definition Math_min (a b : Q) : Q := if ltb b a then b else a.

(** [Math.round(x)]: the nearest integer, halves going up. *)
Definition Math_round (x : Q) : Z := Qfloor (x + (1 # 2)).

(** [Math.floor(x)]. *)
Definition Math_floor (x : Q) : Z := Qfloor x.

End Js.

(** ** Target-size compression (CompressImage page) *)

Module Compressor.

Section WithEncoder.

(** The canvas and the output format are fixed during one call, so the
    encoder is a function of the quality alone.  It answers [None] when
    [canvas.toBlob] hands [null] to its callback, in which case the
    promise is rejected and the rejection leaves [compressToTargetSize]. *)
Variable Blob : Type.
Variable size : Blob -> Z.
Variable canvasToBlob : Q -> option Blob.

(** The variables of the loop.  [probed] and [bestQuality] are ghost
    fields: the log of the qualities handed to [canvasToBlob] so far
    (latest last) and the quality at which [bestBlob] was encoded. *)
Record Search : Type := mkSearch {
  low : Q;
  high : Q;
  bestBlob : option Blob;
  probed : list Q;
  bestQuality : option Q
}.

Definition start (minQuality maxQuality : Q) : Search :=
  {| low := minQuality; high := maxQuality; bestBlob := None;
     probed := []; bestQuality := None |}.

(** One turn of the [for] loop. *)
Definition iteration (targetBytes : Z) (s : Search) : option Search :=
  let mid := (low s + high s) / 2 in
  match canvasToBlob mid with
  | None => None
  | Some blob =>
      if (size blob <=? targetBytes)%Z
      then Some {| low := mid; high := high s; bestBlob := Some blob;
                   probed := probed s ++ [mid]; bestQuality := Some mid |}
      else Some {| low := low s; high := mid; bestBlob := bestBlob s;
                   probed := probed s ++ [mid];
                   bestQuality := bestQuality s |}
  end.

(** [for (let i = 0; i < n; i++) { ... }]. *)
Fixpoint loop (n : nat) (targetBytes : Z) (s : Search) : option Search :=
  match n with
  | O => Some s
  | S k =>
      match iteration targetBytes s with
      | None => None
      | Some s' => loop k targetBytes s'
      end
  end.

(** [return bestBlob || await canvasToBlob(minQuality)]. *)
Definition finish (minQuality : Q) (s : Search) : option Blob :=
  match bestBlob s with
  | Some blob => Some blob
  | None => canvasToBlob minQuality
  end.

Definition compressToTargetSize
    (targetBytes : Z) (minQuality maxQuality : Q) : option Blob :=
  match loop 8 targetBytes (start minQuality maxQuality) with
  | None => None
  | Some s => finish minQuality s
  end.

(** Ghost reading of the same run: the quality of the blob handed back. *)
Definition qualityOf (minQuality : Q) (s : Search) : Q :=
  match bestQuality s with
  | Some q => q
  | None => minQuality
  end.

Definition returnedQuality
    (targetBytes : Z) (minQuality maxQuality : Q) : option Q :=
  match loop 8 targetBytes (start minQuality maxQuality) with
  | None => None
  | Some s => Some (qualityOf minQuality s)
  end.

(** The search as the specification words it: a chain of probes, each at
    the midpoint of the current interval, the lower end moving up to the
    probe when the encoding fits the budget (and the encoding recorded as
    best), the upper end moving down otherwise. *)
Inductive Bisection (targetBytes : Z) :
  nat -> Q -> Q -> option Blob -> list Q -> Q -> Q -> option Blob -> Prop :=
| Bisection_done : forall lo hi best,
    Bisection targetBytes 0 lo hi best [] lo hi best
| Bisection_fits : forall n lo hi best blob trace lo' hi' best',
    canvasToBlob ((lo + hi) / 2) = Some blob ->
    (size blob <= targetBytes)%Z ->
    Bisection targetBytes n ((lo + hi) / 2) hi (Some blob)
              trace lo' hi' best' ->
    Bisection targetBytes (S n) lo hi best
              ((lo + hi) / 2 :: trace) lo' hi' best'
| Bisection_exceeds : forall n lo hi best blob trace lo' hi' best',
    canvasToBlob ((lo + hi) / 2) = Some blob ->
    (targetBytes < size blob)%Z ->
    Bisection targetBytes n lo ((lo + hi) / 2) best
              trace lo' hi' best' ->
    Bisection targetBytes (S n) lo hi best
              ((lo + hi) / 2 :: trace) lo' hi' best'.

(** The probes of a trace whose encoding met the budget. *)
Definition fits (targetBytes : Z) (q : Q) : bool :=
  match canvasToBlob q with
  | Some blob => (size blob <=? targetBytes)%Z
  | None => false
  end.

Definition lastFitting (targetBytes : Z) (trace : list Q) : option Q :=
  match filter (fits targetBytes) (rev trace) with
  | q :: _ => Some q
  | [] => None
  end.

End WithEncoder.

Arguments mkSearch {Blob}.
Arguments low {Blob}.
Arguments high {Blob}.
Arguments bestBlob {Blob}.
Arguments probed {Blob}.
Arguments bestQuality {Blob}.
Arguments qualityOf {Blob}.

(** The defaults of the source: [minQuality = 0.1], [maxQuality = 0.95]. *)
Definition defaultMinQuality : Q := 1 # 10.
Definition defaultMaxQuality : Q := 95 # 100.

End Compressor.

(** ** Fit to canvas (processor module and constants) *)

Module Fit.

Inductive OutputFormat : Type := a4 | whatsapp_dp.
Inductive Orientation : Type := portrait | landscape.

Record Dims : Type := mkDims { width : Z; height : Z }.

Definition A4_PORTRAIT : Dims := {| width := 2480; height := 3508 |}.
Definition A4_LANDSCAPE : Dims := {| width := 3508; height := 2480 |}.
Definition WHATSAPP_DP : Dims := {| width := 1080; height := 1080 |}.

Record ProcessingOptions : Type := mkOptions {
  opt_outputFormat : OutputFormat;
  opt_orientation : option Orientation
}.

Definition detectOrientation (width height : Z) : Orientation :=
  if (width >? height)%Z then landscape else portrait.

Definition getCanvasDimensions
    (outputFormat : OutputFormat) (orientation : Orientation) : Dims :=
  match outputFormat with
  | whatsapp_dp => {| width := width WHATSAPP_DP; height := height WHATSAPP_DP |}
  | a4 => match orientation with
          | landscape => A4_LANDSCAPE
          | portrait => A4_PORTRAIT
          end
  end.

(** The numbers [processImage] derives from the two sizes; the offsets
    and the scaled size are the destination rectangle of the unblurred
    [drawImage]. *)
Record Geometry : Type := mkGeometry {
  scale : Q;
  scaledWidth : Z;
  scaledHeight : Z;
  offsetX : Z;
  offsetY : Z
}.

Definition fitGeometry (originalWidth originalHeight : Z) (canvasDims : Dims)
  : Geometry :=
  let scaleX := inject_Z (width canvasDims) / inject_Z originalWidth in
  let scaleY := inject_Z (height canvasDims) / inject_Z originalHeight in
  let scale := Js.Math_min scaleX scaleY in
  let scaledWidth := Js.Math_round (inject_Z originalWidth * scale) in
  let scaledHeight := Js.Math_round (inject_Z originalHeight * scale) in
  let offsetX :=
    Js.Math_round (inject_Z (width canvasDims - scaledWidth) / 2) in
  let offsetY :=
    Js.Math_round (inject_Z (height canvasDims - scaledHeight) / 2) in
  {| scale := scale; scaledWidth := scaledWidth;
     scaledHeight := scaledHeight; offsetX := offsetX; offsetY := offsetY |}.

Record ProcessingResult : Type := mkResult {
  originalWidth : Z;
  originalHeight : Z;
  geometry : Geometry;
  orientation : Orientation;
  outputFormat : OutputFormat;
  canvasWidth : Z;
  canvasHeight : Z
}.

Definition processImage
    (naturalWidth naturalHeight : Z) (options : ProcessingOptions)
  : ProcessingResult :=
  let finalOrientation :=
    match opt_orientation options with
    | Some o => o
    | None => detectOrientation naturalWidth naturalHeight
    end in
  let canvasDims :=
    getCanvasDimensions (opt_outputFormat options) finalOrientation in
  {| originalWidth := naturalWidth;
     originalHeight := naturalHeight;
     geometry := fitGeometry naturalWidth naturalHeight canvasDims;
     orientation := finalOrientation;
     outputFormat := opt_outputFormat options;
     canvasWidth := width canvasDims;
     canvasHeight := height canvasDims |}.

(** [n] is [x] rounded to the nearest integer, a half going up. *)
Definition nearest (x : Q) (n : Z) : Prop :=
  inject_Z n <= x + (1 # 2) /\ x + (1 # 2) < inject_Z n + 1.

(** The print resolution the preview reports (FitImage page and
    ImagePreview): [Math.round(A4.DPI * scale)], with a warning for A4
    output under 150. *)
Definition A4_DPI : Q := 300.

Definition effectiveDPI (result : ProcessingResult) : Z :=
  Js.Math_round (A4_DPI * scale (geometry result)).

Definition dpiWarning (result : ProcessingResult) : bool :=
  match outputFormat result with
  | a4 => (effectiveDPI result <? 150)%Z
  | whatsapp_dp => false
  end.

End Fit.

(** ** Step-down resampling (ResizeImage page) *)

Module Resampler.

(** A canvas, as far as its size goes: [width] and [height] are unsigned
    integers in the DOM. *)
Record Canvas : Type := mkCanvas { width : N; height : N }.

(** The condition of the [while] loop. *)
Definition farFromTarget (targetW targetH : N) (c : Canvas) : bool :=
  ((targetW * 2 <? width c) || (targetH * 2 <? height c))%N.

(** The body of the loop: the next, smaller canvas. *)
Definition halve (targetW targetH : N) (c : Canvas) : Canvas :=
  let halfW := N.max (width c / 2) targetW in
  let halfH := N.max (height c / 2) targetH in
  {| width := halfW; height := halfH |}.

(** What is left to shrink; it goes down with every turn of the loop. *)
Definition excess (targetW targetH : N) (c : Canvas) : nat :=
  N.to_nat ((width c - targetW) + (height c - targetH)).

Lemma halve_excess (targetW targetH : N) (c : Canvas) :
  farFromTarget targetW targetH c = true ->
  (excess targetW targetH (halve targetW targetH c)
   < excess targetW targetH c)%nat.
Proof.
  unfold farFromTarget, excess, halve. destruct c as [w h]. simpl.
  intros H. apply orb_true_iff in H.
  assert (Hw : (w / 2 <= w)%N) by (apply N.Div0.div_le_upper_bound; lia).
  assert (Hh : (h / 2 <= h)%N) by (apply N.Div0.div_le_upper_bound; lia).
  assert (Hw' : (0 < w -> w / 2 < w)%N) by (intros; apply N.div_lt; lia).
  assert (Hh' : (0 < h -> h / 2 < h)%N) by (intros; apply N.div_lt; lia).
  destruct H as [H | H]; apply N.ltb_lt in H; lia.
Qed.

Definition inspect {A : Type} (a : A) : {b : A | a = b} :=
  exist _ a eq_refl.

(** The [while] loop of [resizeImage]: the canvases it creates, in order. *)
Equations stepDown (targetW targetH : N) (currentCanvas : Canvas)
  : list Canvas by wf (excess targetW targetH currentCanvas) lt :=
stepDown targetW targetH currentCanvas
  with inspect (farFromTarget targetW targetH currentCanvas) => {
  | exist _ true Hfar =>
      let halfCanvas := halve targetW targetH currentCanvas in
      halfCanvas :: stepDown targetW targetH halfCanvas
  | exist _ false _ => [] }.
Next Obligation.
  apply halve_excess. assumption.
Qed.

(** [resizeImage]: the intermediate canvases and the final one. *)
Definition resizeImage (naturalWidth naturalHeight targetW targetH : N)
  : list Canvas * Canvas :=
  let currentCanvas := {| width := naturalWidth; height := naturalHeight |} in
  (stepDown targetW targetH currentCanvas,
   {| width := targetW; height := targetH |}).

End Resampler.

(** ** Crop selection, rotation and extraction (CropImage page) *)

Module Crop.

Record CropArea : Type := mkCropArea {
  x : Q;
  y : Q;
  width : Q;
  height : Q
}.

(** [ratio] is [None] for the free-form preset ([null] in the source). *)
Record AspectRatioPreset : Type := mkPreset {
  name : string;
  ratio : option Q
}.

(** [ASPECT_PRESETS].  The two A4 ratios are the doubles that
    [Math.sqrt(2)] and [1 / Math.sqrt(2)] evaluate to. *)
Definition sqrt2 : Q := 6369051672525773 # 4503599627370496.
Definition inv_sqrt2 : Q := 1592262918131443 # 2251799813685248.

Definition ASPECT_PRESETS : list AspectRatioPreset :=
  [ {| name := "free"%string; ratio := None |};
    {| name := "1:1"%string; ratio := Some 1 |};
    {| name := "4:3"%string; ratio := Some (4 / 3) |};
    {| name := "3:4"%string; ratio := Some (3 / 4) |};
    {| name := "16:9"%string; ratio := Some (16 / 9) |};
    {| name := "9:16"%string; ratio := Some (9 / 16) |};
    {| name := "a4-portrait"%string; ratio := Some inv_sqrt2 |};
    {| name := "a4-landscape"%string; ratio := Some sqrt2 |} ].

(** The value the JavaScript test [if (preset.ratio)] lets through:
    [null] and [0] do not pass. *)
Definition truthy (r : option Q) : option Q :=
  match r with
  | Some q => if Qeq_bool q 0 then None else Some q
  | None => None
  end.

(** The resize handles the page renders. *)
Inductive Handle : Type := nw | ne | sw | se.

(** [isResizing.includes('e')] and [isResizing.includes('w')]. *)
Definition includes_e (h : Handle) : bool :=
  match h with ne | se => true | nw | sw => false end.
Definition includes_w (h : Handle) : bool :=
  match h with nw | sw => true | ne | se => false end.

Record Image : Type := mkImage { naturalWidth : Z; naturalHeight : Z }.

(** The component state the geometry reads and writes. *)
Record State : Type := mkState {
  originalImage : option Image;
  selectedPreset : AspectRatioPreset;
  cropArea : CropArea;
  rotation : Z;
  isDragging : bool;
  isResizing : option Handle;
  dragStart : Q * Q;
  cropStart : CropArea;
  displayScale : Q
}.

Definition setCropArea (st : State) (c : CropArea) : State :=
  {| originalImage := originalImage st;
     selectedPreset := selectedPreset st;
     cropArea := c;
     rotation := rotation st;
     isDragging := isDragging st;
     isResizing := isResizing st;
     dragStart := dragStart st;
     cropStart := cropStart st;
     displayScale := displayScale st |}.

(** The state of a freshly mounted component. *)
Definition mounted : State :=
  {| originalImage := None;
     selectedPreset := {| name := "free"%string; ratio := None |};
     cropArea := {| x := 0; y := 0; width := 100; height := 100 |};
     rotation := 0;
     isDragging := false;
     isResizing := None;
     dragStart := (0, 0);
     cropStart := {| x := 0; y := 0; width := 0; height := 0 |};
     displayScale := 1 # 10 |}.

(** [updateScale]: [Math.min(scaleX, scaleY, 1)] for a 550 by 380 preview. *)
Definition updateScale (img : Image) : Q :=
  let scaleX := 550 / inject_Z (naturalWidth img) in
  let scaleY := 380 / inject_Z (naturalHeight img) in
  Js.Math_min (Js.Math_min scaleX scaleY) 1.

(** The rectangle the crop-initialising effect computes: 80% of the
    image, cut to the preset's ratio, centred. *)
Definition initialCropArea (img : Image) (presetRatio : option Q) : CropArea :=
  let w := inject_Z (naturalWidth img) in
  let h := inject_Z (naturalHeight img) in
  let cropW := w * (8 # 10) in
  let cropH := h * (8 # 10) in
  let '(cropW, cropH) :=
    match truthy presetRatio with
    | Some r =>
        if Js.gtb (cropW / cropH) r
        then (cropH * r, cropH)
        else (cropW, cropW / r)
    | None => (cropW, cropH)
    end in
  {| x := (w - cropW) / 2; y := (h - cropH) / 2;
     width := cropW; height := cropH |}.

(** The effect that depends on [originalImage] and [selectedPreset.ratio]. *)
Definition initCropEffect (st : State) : State :=
  match originalImage st with
  | Some img =>
      setCropArea st (initialCropArea img (ratio (selectedPreset st)))
  | None => st
  end.

(** An image has been loaded: [setRotation(0)], [setOriginalImage(image)],
    then the two effects that depend on the image. *)
Definition imageLoaded (st : State) (img : Image) : State :=
  initCropEffect
    {| originalImage := Some img;
       selectedPreset := selectedPreset st;
       cropArea := cropArea st;
       rotation := 0;
       isDragging := isDragging st;
       isResizing := isResizing st;
       dragStart := dragStart st;
       cropStart := cropStart st;
       displayScale := updateScale img |}.

(** The rectangle [handlePresetChange] sets when an image is there and
    the preset has a ratio. *)
Definition presetCropArea (img : Image) (c : CropArea) (r : Q) : CropArea :=
  let w := inject_Z (naturalWidth img) in
  let h := inject_Z (naturalHeight img) in
  let newW := width c in
  let newH := height c in
  let '(newW, newH) :=
    if Js.gtb (newW / newH) r
    then (newH * r, newH)
    else (newW, newW / r) in
  let centerX := x c + width c / 2 in
  let centerY := y c + height c / 2 in
  let newX := Js.Math_max 0 (Js.Math_min (w - newW) (centerX - newW / 2)) in
  let newY := Js.Math_max 0 (Js.Math_min (h - newH) (centerY - newH / 2)) in
  {| x := newX; y := newY; width := newW; height := newH |}.

Definition handlePresetChange (st : State) (preset : AspectRatioPreset)
  : State :=
  let st1 :=
    {| originalImage := originalImage st;
       selectedPreset := preset;
       cropArea := cropArea st;
       rotation := rotation st;
       isDragging := isDragging st;
       isResizing := isResizing st;
       dragStart := dragStart st;
       cropStart := cropStart st;
       displayScale := displayScale st |} in
  match originalImage st, truthy (ratio preset) with
  | Some img, Some r => setCropArea st1 (presetCropArea img (cropArea st) r)
  | _, _ => st1
  end.

(** [setRotation((prev) => (prev + degrees) % 360)]: the remainder of
    JavaScript takes the sign of the dividend. *)
Definition handleRotate (st : State) (degrees : Z) : State :=
  {| originalImage := originalImage st;
     selectedPreset := selectedPreset st;
     cropArea := cropArea st;
     rotation := Z.rem (rotation st + degrees) 360;
     isDragging := isDragging st;
     isResizing := isResizing st;
     dragStart := dragStart st;
     cropStart := cropStart st;
     displayScale := displayScale st |}.

Definition handleMouseDown
    (st : State) (clientX clientY : Q) (handle : option Handle) : State :=
  {| originalImage := originalImage st;
     selectedPreset := selectedPreset st;
     cropArea := cropArea st;
     rotation := rotation st;
     isDragging := match handle with Some _ => isDragging st | None => true end;
     isResizing := match handle with Some h => Some h | None => isResizing st end;
     dragStart := (clientX, clientY);
     cropStart := cropArea st;
     displayScale := displayScale st |}.

Definition handleMouseUp (st : State) : State :=
  {| originalImage := originalImage st;
     selectedPreset := selectedPreset st;
     cropArea := cropArea st;
     rotation := rotation st;
     isDragging := false;
     isResizing := None;
     dragStart := dragStart st;
     cropStart := cropStart st;
     displayScale := displayScale st |}.

(** Assignments to the fields of the local [newArea]. *)
Definition set_x (c : CropArea) (v : Q) : CropArea :=
  {| x := v; y := y c; width := width c; height := height c |}.
Definition set_y (c : CropArea) (v : Q) : CropArea :=
  {| x := x c; y := v; width := width c; height := height c |}.
Definition set_width (c : CropArea) (v : Q) : CropArea :=
  {| x := x c; y := y c; width := v; height := height c |}.
Definition set_height (c : CropArea) (v : Q) : CropArea :=
  {| x := x c; y := y c; width := width c; height := v |}.

(** The dragging branch of [handleMouseMove]. *)
Definition dragTo (imgW imgH : Q) (cropStart : CropArea) (deltaX deltaY : Q)
  : CropArea :=
  let newX :=
    Js.Math_max 0 (Js.Math_min (imgW - width cropStart) (x cropStart + deltaX)) in
  let newY :=
    Js.Math_max 0 (Js.Math_min (imgH - height cropStart) (y cropStart + deltaY)) in
  {| x := newX; y := newY;
     width := width cropStart; height := height cropStart |}.

(** The [switch (isResizing)] of [handleMouseMove]. *)
Definition resizeByHandle
    (imgW imgH : Q) (cropStart : CropArea) (deltaX deltaY : Q) (h : Handle)
  : CropArea :=
  let newArea := cropStart in
  match h with
  | se =>
      let newArea := set_width newArea
        (Js.Math_max 50 (Js.Math_min (imgW - x cropStart) (width cropStart + deltaX))) in
      let newArea := set_height newArea
        (Js.Math_max 50 (Js.Math_min (imgH - y cropStart) (height cropStart + deltaY))) in
      newArea
  | sw =>
      let newWidth := Js.Math_max 50 (width cropStart - deltaX) in
      let newArea := set_x newArea (x cropStart + width cropStart - newWidth) in
      let newArea := set_width newArea newWidth in
      let newArea := set_height newArea
        (Js.Math_max 50 (Js.Math_min (imgH - y cropStart) (height cropStart + deltaY))) in
      if Js.ltb (x newArea) 0
      then set_x (set_width newArea (width newArea + x newArea)) 0
      else newArea
  | ne =>
      let newArea := set_width newArea
        (Js.Math_max 50 (Js.Math_min (imgW - x cropStart) (width cropStart + deltaX))) in
      let newHeight := Js.Math_max 50 (height cropStart - deltaY) in
      let newArea := set_y newArea (y cropStart + height cropStart - newHeight) in
      let newArea := set_height newArea newHeight in
      if Js.ltb (y newArea) 0
      then set_y (set_height newArea (height newArea + y newArea)) 0
      else newArea
  | nw =>
      let newWidth := Js.Math_max 50 (width cropStart - deltaX) in
      let newHeight := Js.Math_max 50 (height cropStart - deltaY) in
      let newArea := set_x newArea (x cropStart + width cropStart - newWidth) in
      let newArea := set_y newArea (y cropStart + height cropStart - newHeight) in
      let newArea := set_width newArea newWidth in
      let newArea := set_height newArea newHeight in
      let newArea :=
        if Js.ltb (x newArea) 0
        then set_x (set_width newArea (width newArea + x newArea)) 0
        else newArea in
      if Js.ltb (y newArea) 0
      then set_y (set_height newArea (height newArea + y newArea)) 0
      else newArea
  end.

(** The block under [// Apply aspect ratio constraint]. *)
Definition applyAspectRatio
    (imgW imgH : Q) (h : Handle) (targetRatio : Q) (newArea : CropArea)
  : CropArea :=
  let newArea :=
    if includes_e h || includes_w h
    then set_height newArea (width newArea / targetRatio)
    else set_width newArea (height newArea * targetRatio) in
  let newArea :=
    if Js.gtb (x newArea + width newArea) imgW
    then
      let newArea := set_width newArea (imgW - x newArea) in
      set_height newArea (width newArea / targetRatio)
    else newArea in
  if Js.gtb (y newArea + height newArea) imgH
  then
    let newArea := set_height newArea (imgH - y newArea) in
    set_width newArea (height newArea * targetRatio)
  else newArea.

Definition handleMouseMove (st : State) (clientX clientY : Q) : State :=
  if negb (isDragging st)
     && match isResizing st with None => true | Some _ => false end
  then st
  else
    match originalImage st with
    | None => st
    | Some img =>
        let deltaX := (clientX - fst (dragStart st)) / displayScale st in
        let deltaY := (clientY - snd (dragStart st)) / displayScale st in
        let imgW := inject_Z (naturalWidth img) in
        let imgH := inject_Z (naturalHeight img) in
        if isDragging st
        then setCropArea st (dragTo imgW imgH (cropStart st) deltaX deltaY)
        else
          match isResizing st with
          | Some h =>
              let newArea :=
                resizeByHandle imgW imgH (cropStart st) deltaX deltaY h in
              let newArea :=
                match truthy (ratio (selectedPreset st)) with
                | Some targetRatio =>
                    applyAspectRatio imgW imgH h targetRatio newArea
                | None => newArea
                end in
              setCropArea st newArea
          | None => st
          end
    end.

(** The sizes [handleCropAndDownload] gives its canvases: the output
    canvas, and the rotated copy of the image when there is one. *)
Record Extraction : Type := mkExtraction {
  canvasWidth : Z;
  canvasHeight : Z;
  rotatedCanvas : option (Z * Z)
}.

Definition rotatedCanvasSize (img : Image) (rotation : Z) : option (Z * Z) :=
  if (rotation =? 0)%Z then None
  else if ((rotation =? 90) || (rotation =? 270)
           || (rotation =? -90) || (rotation =? -270))%Z
  then Some (naturalHeight img, naturalWidth img)
  else Some (naturalWidth img, naturalHeight img).

Definition handleCropAndDownload (st : State) : option Extraction :=
  match originalImage st with
  | None => None
  | Some img =>
      Some {| canvasWidth := Js.Math_round (width (cropArea st));
              canvasHeight := Js.Math_round (height (cropArea st));
              rotatedCanvas := rotatedCanvasSize img (rotation st) |}
  end.

(** What the user can do to a loaded image. *)
Inductive Event : Type :=
| MouseDown (clientX clientY : Q) (handle : option Handle)
| MouseMove (clientX clientY : Q)
| MouseUp
| PresetChange (preset : AspectRatioPreset)
| Rotate (degrees : Z).

(** Whether React sees the same [selectedPreset.ratio] as before. *)
Definition sameRatio (a b : option Q) : bool :=
  match a, b with
  | None, None => true
  | Some p, Some q => Qeq_bool p q
  | _, _ => false
  end.

(** One event: its handler, then the crop-initialising effect when the
    handler changed [selectedPreset.ratio]. *)
Definition step (st : State) (e : Event) : State :=
  match e with
  | MouseDown clientX clientY handle => handleMouseDown st clientX clientY handle
  | MouseMove clientX clientY => handleMouseMove st clientX clientY
  | MouseUp => handleMouseUp st
  | PresetChange preset =>
      let st1 := handlePresetChange st preset in
      if sameRatio (ratio (selectedPreset st)) (ratio preset)
      then st1
      else initCropEffect st1
  | Rotate degrees => handleRotate st degrees
  end.

Definition run (st : State) (events : list Event) : State :=
  fold_left step events st.

(** A crop session: a mounted component with a preset chosen, then an
    image. *)
Definition session (img : Image) (preset : AspectRatioPreset) : State :=
  imageLoaded
    {| originalImage := None;
       selectedPreset := preset;
       cropArea := cropArea mounted;
       rotation := rotation mounted;
       isDragging := false;
       isResizing := None;
       dragStart := dragStart mounted;
       cropStart := cropStart mounted;
       displayScale := displayScale mounted |}
    img.


End Crop.


(** ** File names, formats and upload checks (processor, constants,
    FileUpload) *)

Module Files.

Local Open Scope string_scope.

Definition HEIC_FORMATS : list string := ["image/heic"; "image/heif"].

Definition SUPPORTED_FORMATS : list string :=
  ["image/jpeg"; "image/png"; "image/webp"; "image/heic"; "image/heif"].

Definition ACCEPTED_EXTENSIONS : list string :=
  [".jpg"; ".jpeg"; ".png"; ".webp"; ".heic"; ".heif"].

Definition MAX_FILE_SIZE : Z := 20 * 1024 * 1024.
Definition MAX_FILE_SIZE_DISPLAY : string := "20MB".

(** [list.includes(s)]. *)
Definition includes (l : list string) (s : string) : bool :=
  existsb (String.eqb s) l.

(** [s.split('.')]: never empty, one more piece than there are dots. *)
Fixpoint split_dot (s : string) : list string :=
  match s with
  | EmptyString => [EmptyString]
  | String c rest =>
      if Ascii.eqb c "."%char
      then EmptyString :: split_dot rest
      else match split_dot rest with
           | piece :: pieces => String c piece :: pieces
           | [] => [String c EmptyString]
           end
  end.

(** [pieces.pop()] as a value: the last piece. *)
Definition pop (pieces : list string) : string := last pieces EmptyString.

(** What the checks read of a [File]. *)
Record File : Type := mkFile { name : string; type : string; size : Z }.

Section WithLowerCase.

(** [String.prototype.toLowerCase], left abstract. *)
Variable toLowerCase : string -> string.

Definition isHeicFile (file : File) : bool :=
  if includes HEIC_FORMATS (type file) then true
  else
    let extension := pop (split_dot (toLowerCase (name file))) in
    (extension =? "heic") || (extension =? "heif").

Definition isSupportedFormat (file : File) : bool :=
  if includes SUPPORTED_FORMATS (type file) then true
  else
    let extension := "." ++ pop (split_dot (toLowerCase (name file))) in
    includes ACCEPTED_EXTENSIONS extension.

(** [validateFile]: the message, or [None] for [null]. *)
Definition validateFile (file : File) : option string :=
  if negb (isSupportedFormat file)
  then Some "Unsupported format. Please use JPG, PNG, WebP, or HEIC"
  else if (size file >? MAX_FILE_SIZE)%Z
  then Some ("File too large. Maximum size is " ++ MAX_FILE_SIZE_DISPLAY)
  else None.

End WithLowerCase.

(** The class [[^/.]] of the regular expression. *)
Definition extensionChar (c : ascii) : bool :=
  negb (Ascii.eqb c "/"%char) && negb (Ascii.eqb c "."%char).

Fixpoint allExtensionChars (s : string) : bool :=
  match s with
  | EmptyString => true
  | String c rest => extensionChar c && allExtensionChars rest
  end.

(** [[^/.]+$] matched against the whole of [s]. *)
Definition extensionBody (s : string) : bool :=
  match s with
  | EmptyString => false
  | String _ _ => allExtensionChars s
  end.

(** [name.replace(/\.[^/.]+$/, '')]: the first position, from the left,
    where the expression matches is cut off. *)
Fixpoint stripExtension (s : string) : string :=
  match s with
  | EmptyString => EmptyString
  | String c rest =>
      if Ascii.eqb c "."%char && extensionBody rest
      then EmptyString
      else String c (stripExtension rest)
  end.

Inductive ExportFormat : Type := png | jpeg.

Definition generateFilename
    (originalName : string) (format : ExportFormat)
    (outputFormat : Fit.OutputFormat) : string :=
  let baseName := stripExtension originalName in
  let extension := match format with jpeg => "jpg" | png => "png" end in
  let suffix :=
    match outputFormat with
    | Fit.whatsapp_dp => "whatsapp-dp"
    | Fit.a4 => "a4"
    end in
  baseName ++ "-" ++ suffix ++ "." ++ extension.

(** The name [handleCropAndDownload] gives the download. *)
Definition croppedFilename (originalName : string) (exportFormat : ExportFormat)
  : string :=
  let baseName := stripExtension originalName in
  let ext := match exportFormat with jpeg => "jpg" | png => "png" end in
  baseName ++ "-cropped." ++ ext.

End Files.

(** ** The CompressImage page around the search *)

Module CompressPage.

Local Open Scope string_scope.

Inductive CompressionMode : Type := quality_mode | target_size.
Inductive OutputFormat : Type := jpeg | webp | original.
Inductive MimeType : Type := image_jpeg | image_webp | image_png.

(** The [mimeType] that [compressImage] settles on. *)
Definition mimeTypeOf (outputFormat : OutputFormat) (fileType : string)
  : MimeType :=
  match outputFormat with
  | original =>
      if fileType =? "image/png" then image_png
      else if fileType =? "image/webp" then image_webp
      else image_jpeg
  | webp => image_webp
  | jpeg => image_jpeg
  end.

(** Which of its three ways [compressImage] encodes the canvas. *)
Inductive Encoding : Type :=
| lossless
| searched (targetBytes : Z) (mimeType : MimeType)
| atQuality (q : Q) (mimeType : MimeType).

Definition compressImage
    (compressionMode : CompressionMode) (quality targetSizeKB : Z)
    (outputFormat : OutputFormat) (fileType : string) : Encoding :=
  let mimeType := mimeTypeOf outputFormat fileType in
  match mimeType with
  | image_png => lossless
  | _ =>
      match compressionMode with
      | target_size => searched (targetSizeKB * 1024) mimeType
      | quality_mode => atQuality (inject_Z quality / 100) mimeType
      end
  end.

(** The extension [handleDownload] puts on the name. *)
Definition downloadExtension (outputFormat : OutputFormat) (fileType : string)
  : string :=
  match outputFormat with
  | webp => "webp"
  | original =>
      if fileType =? "image/png" then "png"
      else if fileType =? "image/webp" then "webp"
      else "jpg"
  | jpeg => "jpg"
  end.

Definition downloadName
    (originalName : string) (outputFormat : OutputFormat) (fileType : string)
  : string :=
  let baseName := Files.stripExtension originalName in
  let ext := downloadExtension outputFormat fileType in
  baseName ++ "-compressed." ++ ext.

(** [savingsPercent], from the two sizes in bytes. *)
Definition savingsPercent (originalSize compressedSize : Z) : Z :=
  if (originalSize >? 0)%Z
  then Js.Math_round
         ((1 - inject_Z compressedSize / inject_Z originalSize) * 100)%Q
  else 0%Z.

(** The budget a freshly loaded file gets:
    [Math.round(file.size / 1024 / 2)] kilobytes. *)
Definition defaultTargetSizeKB (fileSize : Z) : Z :=
  Js.Math_round (inject_Z fileSize / 1024 / 2)%Q.

End CompressPage.

(** ** The ResizeImage page around the step-down loop *)

Module ResizePage.

Inductive ResizeMode : Type := dimensions | percentage | preset.

Record Preset : Type := mkPreset { name : string; width : Z; height : Z }.

Record Image : Type := mkImage { naturalWidth : Z; naturalHeight : Z }.

Record State : Type := mkState {
  originalImage : option Image;
  resizeMode : ResizeMode;
  targetWidth : Z;
  targetHeight : Z;
  percent : Z;
  lockAspectRatio : bool;
  selectedPreset : option Preset
}.

Definition getEffectiveDimensions (st : State) : Z * Z :=
  match originalImage st with
  | None => (0, 0)%Z
  | Some img =>
      let origW := naturalWidth img in
      let origH := naturalHeight img in
      let aspectRatio := inject_Z origW / inject_Z origH in
      match resizeMode st with
      | dimensions =>
          if lockAspectRatio st
          then (targetWidth st,
                Js.Math_round (inject_Z (targetWidth st) / aspectRatio))
          else (targetWidth st, targetHeight st)
      | percentage =>
          (Js.Math_round (inject_Z origW * (inject_Z (percent st) / 100)),
           Js.Math_round (inject_Z origH * (inject_Z (percent st) / 100)))
      | preset =>
          match selectedPreset st with
          | Some p => (width p, height p)
          | None => (origW, origH)
          end
      end
  end.

(** [Math.max(1, Math.min(10000, value || 1))] on the integer the input
    field parses. *)
Definition clampSide (value : Z) : Z :=
  Z.max 1 (Z.min 10000 (if (value =? 0)%Z then 1 else value)).

Definition handleWidthChange (st : State) (value : Z) : State :=
  let newWidth := clampSide value in
  {| originalImage := originalImage st;
     resizeMode := resizeMode st;
     targetWidth := newWidth;
     targetHeight :=
       match lockAspectRatio st, originalImage st with
       | true, Some img =>
           let aspectRatio :=
             inject_Z (naturalWidth img) / inject_Z (naturalHeight img) in
           Js.Math_round (inject_Z newWidth / aspectRatio)
       | _, _ => targetHeight st
       end;
     percent := percent st;
     lockAspectRatio := lockAspectRatio st;
     selectedPreset := selectedPreset st |}.

Definition handleHeightChange (st : State) (value : Z) : State :=
  let newHeight := clampSide value in
  {| originalImage := originalImage st;
     resizeMode := resizeMode st;
     targetWidth :=
       match lockAspectRatio st, originalImage st with
       | true, Some img =>
           let aspectRatio :=
             inject_Z (naturalWidth img) / inject_Z (naturalHeight img) in
           Js.Math_round (inject_Z newHeight * aspectRatio)
       | _, _ => targetWidth st
       end;
     targetHeight := newHeight;
     percent := percent st;
     lockAspectRatio := lockAspectRatio st;
     selectedPreset := selectedPreset st |}.

Definition handlePresetSelect (st : State) (p : Preset) : State :=
  {| originalImage := originalImage st;
     resizeMode := preset;
     targetWidth := width p;
     targetHeight := height p;
     percent := percent st;
     lockAspectRatio := false;
     selectedPreset := Some p |}.

Definition handlePercentageChange (st : State) (pct : Z) : State :=
  {| originalImage := originalImage st;
     resizeMode := percentage;
     targetWidth := targetWidth st;
     targetHeight := targetHeight st;
     percent := pct;
     lockAspectRatio := lockAspectRatio st;
     selectedPreset := selectedPreset st |}.

(** The state after a file has been loaded. *)
Definition imageLoaded (st : State) (img : Image) : State :=
  {| originalImage := Some img;
     resizeMode := dimensions;
     targetWidth := naturalWidth img;
     targetHeight := naturalHeight img;
     percent := 100;
     lockAspectRatio := lockAspectRatio st;
     selectedPreset := None |}.

(** The resize the effect asks for: nothing without an image or for a
    side that is not positive, else [resizeImage] on the effective size. *)
Definition processResize (st : State)
  : option (list Resampler.Canvas * Resampler.Canvas) :=
  match originalImage st with
  | None => None
  | Some img =>
      let '(w, h) := getEffectiveDimensions st in
      if ((w >? 0) && (h >? 0))%Z
      then Some (Resampler.resizeImage
                   (Z.to_N (naturalWidth img)) (Z.to_N (naturalHeight img))
                   (Z.to_N w) (Z.to_N h))
      else None
  end.

(** [isUpscaling]: [scaleFactor > 1]. *)
Definition isUpscaling (st : State) : bool :=
  match originalImage st with
  | Some img =>
      Js.gtb (inject_Z (fst (getEffectiveDimensions st))
              / inject_Z (naturalWidth img)) 1
  | None => false
  end.

End ResizePage.


(** * Properties *)

(** ** Comparisons and rounding *)

Module JsFacts.

Import Js.

Lemma ltb_true (a b : Q) : ltb a b = true -> a < b.
Proof.
  unfold ltb. intros H. apply Qlt_alt.
  destruct (a ?= b); congruence.
Qed.

Lemma ltb_false (a b : Q) : ltb a b = false -> b <= a.
Proof.
  unfold ltb. intros H. apply Qnot_lt_le. intros Hlt.
  rewrite (proj1 (Qlt_alt a b) Hlt) in H. discriminate.
Qed.

Lemma ltb_spec (a b : Q) :
  (ltb a b = true /\ a < b) \/ (ltb a b = false /\ b <= a).
Proof.
  destruct (ltb a b) eqn:E.
  - left. split; [reflexivity | now apply ltb_true].
  - right. split; [reflexivity | now apply ltb_false].
Qed.

Lemma Math_max_spec (a b : Q) :
  (a < b /\ Math_max a b = b) \/ (b <= a /\ Math_max a b = a).
Proof.
  unfold Math_max.
  destruct (ltb_spec a b) as [[-> H] | [-> H]]; auto.
Qed.

Lemma Math_min_spec (a b : Q) :
  (b < a /\ Math_min a b = b) \/ (a <= b /\ Math_min a b = a).
Proof.
  unfold Math_min.
  destruct (ltb_spec b a) as [[-> H] | [-> H]]; auto.
Qed.

(** Rounding a value that does not exceed an integer stays below it. *)
Lemma Math_round_le_Z (x : Q) (n : Z) :
  x <= inject_Z n -> (Math_round x <= n)%Z.
Proof.
  intros H. unfold Math_round.
  assert (Hlt : inject_Z (Qfloor (x + (1 # 2))) < inject_Z (n + 1)).
  { eapply Qle_lt_trans; [apply Qfloor_le |].
    rewrite inject_Z_plus. change (inject_Z 1) with 1. lra. }
  rewrite <- Zlt_Qlt in Hlt. lia.
Qed.

Lemma Math_round_nonneg (x : Q) : 0 <= x -> (0 <= Math_round x)%Z.
Proof.
  intros H. unfold Math_round.
  rewrite <- (Qfloor_Z 0). apply Qfloor_resp_le.
  change (inject_Z 0) with 0. lra.
Qed.

(** [Math.round] of half an integer. *)
Lemma Math_round_half (d : Z) :
  Math_round (inject_Z d / 2) = ((d + 1) / 2)%Z.
Proof.
  unfold Math_round.
  rewrite (Zdiv_Qdiv (d + 1) 2). apply Qfloor_comp.
  rewrite inject_Z_plus. change (inject_Z 1) with 1.
  change (inject_Z 2) with 2. field.
Qed.

End JsFacts.

(** ** The bisection of [compressToTargetSize] *)

Module CompressorFacts.

Import Compressor.

Section Facts.

Variable Blob : Type.
Variable size : Blob -> Z.
Variable canvasToBlob : Q -> option Blob.

Local Abbreviation iteration := (Compressor.iteration Blob size canvasToBlob).
Local Abbreviation loop := (Compressor.loop Blob size canvasToBlob).
Local Abbreviation finish := (Compressor.finish Blob canvasToBlob).
Local Abbreviation compressToTargetSize :=
  (Compressor.compressToTargetSize Blob size canvasToBlob).
Local Abbreviation returnedQuality :=
  (Compressor.returnedQuality Blob size canvasToBlob).
Local Abbreviation Bisection := (Compressor.Bisection Blob size canvasToBlob).
Local Abbreviation fits := (Compressor.fits Blob size canvasToBlob).
Local Abbreviation lastFitting := (Compressor.lastFitting Blob size canvasToBlob).
Local Abbreviation start := (Compressor.start Blob).

(** The encoder never hands back [null]. *)
Definition encodes : Prop := forall q, canvasToBlob q <> None.

(** The two outcomes of one turn of the loop. *)
Lemma iteration_cases (T : Z) (s s' : Search Blob) :
  iteration T s = Some s' ->
  exists blob,
    canvasToBlob ((low s + high s) / 2) = Some blob /\
    (((size blob <= T)%Z /\
      s' = {| low := (low s + high s) / 2; high := high s;
              bestBlob := Some blob;
              probed := probed s ++ [(low s + high s) / 2];
              bestQuality := Some ((low s + high s) / 2) |})
     \/
     ((T < size blob)%Z /\
      s' = {| low := low s; high := (low s + high s) / 2;
              bestBlob := bestBlob s;
              probed := probed s ++ [(low s + high s) / 2];
              bestQuality := bestQuality s |})).
Proof.
  unfold Compressor.iteration. intros H.
  destruct (canvasToBlob ((low s + high s) / 2)) as [blob |]; [| discriminate].
  exists blob. split; [reflexivity |].
  destruct (size blob <=? T)%Z eqn:E; inversion H; subst.
  - left. split; [now apply Z.leb_le | reflexivity].
  - right. split; [now apply Z.leb_gt | reflexivity].
Qed.

Lemma iteration_total (T : Z) (s : Search Blob) :
  encodes -> exists s', iteration T s = Some s'.
Proof.
  intros Henc. unfold Compressor.iteration.
  destruct (canvasToBlob ((low s + high s) / 2)) as [blob |] eqn:E.
  - destruct (size blob <=? T)%Z; eexists; reflexivity.
  - exfalso. exact (Henc _ E).
Qed.

Lemma loop_total (n : nat) (T : Z) (s : Search Blob) :
  encodes -> exists s', loop n T s = Some s'.
Proof.
  intros Henc. revert s. induction n as [| n IH]; intros s; simpl.
  - now exists s.
  - destruct (iteration_total T s Henc) as [s1 ->]. apply IH.
Qed.

Lemma lastFitting_cons (T : Z) (q : Q) (trace : list Q) :
  lastFitting T (q :: trace) =
  match lastFitting T trace with
  | Some q' => Some q'
  | None => if fits T q then Some q else None
  end.
Proof.
  unfold Compressor.lastFitting. simpl rev. rewrite filter_app. simpl.
  destruct (filter (fits T) (rev trace)); simpl.
  - destruct (fits T q); reflexivity.
  - reflexivity.
Qed.

Lemma lastFitting_Some (T : Z) (trace : list Q) (q : Q) :
  lastFitting T trace = Some q -> In q trace /\ fits T q = true.
Proof.
  unfold Compressor.lastFitting.
  destruct (filter (fits T) (rev trace)) as [| q' l] eqn:E; [discriminate |].
  intros H. inversion H; subst q'.
  assert (Hin : In q (filter (fits T) (rev trace))) by (rewrite E; now left).
  apply filter_In in Hin. destruct Hin as [Hin Hf].
  split; [now apply in_rev | exact Hf].
Qed.

Lemma lastFitting_None (T : Z) (trace : list Q) :
  lastFitting T trace = None -> forall q, In q trace -> fits T q = false.
Proof.
  unfold Compressor.lastFitting.
  destruct (filter (fits T) (rev trace)) as [| q' l] eqn:E; [| discriminate].
  intros _ q Hin. destruct (fits T q) eqn:Hf; [| reflexivity].
  assert (H : In q (filter (fits T) (rev trace))).
  { apply filter_In. split; [now apply in_rev in Hin | exact Hf]. }
  rewrite E in H. destruct H.
Qed.

(** The loop follows the chain of probes of the specification, and its
    best blob is the encoding at the last probe that met the budget. *)
Lemma loop_trace (n : nat) (T : Z) :
  forall s s', loop n T s = Some s' ->
  exists trace,
    probed s' = probed s ++ trace /\
    length trace = n /\
    Bisection T n (low s) (high s) (bestBlob s)
              trace (low s') (high s') (bestBlob s') /\
    bestBlob s' = match lastFitting T trace with
                  | Some q => canvasToBlob q
                  | None => bestBlob s
                  end /\
    bestQuality s' = match lastFitting T trace with
                     | Some q => Some q
                     | None => bestQuality s
                     end.
Proof.
  induction n as [| n IH]; intros s s'; simpl.
  - intros H. inversion H; subst s'. exists [].
    rewrite app_nil_r. repeat split. constructor.
  - destruct (iteration T s) as [s1 |] eqn:Hit; [| discriminate].
    intros Hloop. destruct (IH _ _ Hloop) as (tr & Hp & Hlen & Hb & Hbest & Hq).
    destruct (iteration_cases T s s1 Hit) as (blob & Hblob & Hcase).
    exists ((low s + high s) / 2 :: tr).
    rewrite lastFitting_cons.
    assert (Hfit : fits T ((low s + high s) / 2) = (size blob <=? T)%Z).
    { unfold Compressor.fits. now rewrite Hblob. }
    destruct Hcase as [[Hle ->] | [Hgt ->]]; simpl in *.
    + repeat split.
      * rewrite Hp, <- app_assoc. reflexivity.
      * now rewrite Hlen.
      * eapply Bisection_fits; eauto.
      * rewrite Hbest. destruct (lastFitting T tr); [reflexivity |].
        rewrite Hfit. apply Z.leb_le in Hle. rewrite Hle. now rewrite Hblob.
      * rewrite Hq. destruct (lastFitting T tr); [reflexivity |].
        rewrite Hfit. apply Z.leb_le in Hle. now rewrite Hle.
    + repeat split.
      * rewrite Hp, <- app_assoc. reflexivity.
      * now rewrite Hlen.
      * eapply Bisection_exceeds; eauto.
      * rewrite Hbest. destruct (lastFitting T tr); [reflexivity |].
        rewrite Hfit. apply Z.leb_gt in Hgt. now rewrite Hgt.
      * rewrite Hq. destruct (lastFitting T tr); [reflexivity |].
        rewrite Hfit. apply Z.leb_gt in Hgt. now rewrite Hgt.
Qed.

(** The interval of the search: both ends stay between the two given
    qualities, the lower end strictly below the upper one, and every
    probe strictly between the two given qualities. *)
Definition inside (minQuality maxQuality : Q) (s : Search Blob) : Prop :=
  minQuality <= low s /\ low s < high s /\ high s <= maxQuality /\
  Forall (fun q => minQuality < q /\ q < maxQuality) (probed s).

Lemma iteration_inside (T : Z) (minQuality maxQuality : Q) (s s' : Search Blob) :
  inside minQuality maxQuality s ->
  iteration T s = Some s' ->
  inside minQuality maxQuality s' /\
  (high s' - low s') * 2 == high s - low s.
Proof.
  intros (Hlo & Hlt & Hhi & Hall) Hit.
  destruct (iteration_cases T s s' Hit) as (blob & _ & [[_ ->] | [_ ->]]);
    unfold inside; simpl.
  - repeat split.
    + apply Qle_shift_div_l; lra.
    + apply Qlt_shift_div_r; lra.
    + exact Hhi.
    + apply Forall_app. split; [exact Hall |].
      constructor; [| constructor]. split.
      * apply Qlt_shift_div_l; lra.
      * apply Qlt_shift_div_r; lra.
    + field.
  - repeat split.
    + exact Hlo.
    + apply Qlt_shift_div_l; lra.
    + apply Qle_shift_div_r; lra.
    + apply Forall_app. split; [exact Hall |].
      constructor; [| constructor]. split.
      * apply Qlt_shift_div_l; lra.
      * apply Qlt_shift_div_r; lra.
    + field.
Qed.

Lemma loop_inside (n : nat) (T : Z) (minQuality maxQuality : Q) :
  forall s s',
  inside minQuality maxQuality s ->
  loop n T s = Some s' ->
  inside minQuality maxQuality s' /\
  (high s' - low s') * inject_Z (2 ^ Z.of_nat n) == high s - low s.
Proof.
  induction n as [| n IH]; intros s s' Hin; simpl loop.
  - intros H. inversion H; subst s'. split; [exact Hin |].
    change (inject_Z (2 ^ Z.of_nat 0)) with 1. ring.
  - destruct (iteration T s) as [s1 |] eqn:Hit; [| discriminate].
    intros Hloop.
    destruct (iteration_inside T _ _ s s1 Hin Hit) as [Hin1 Hw1].
    destruct (IH s1 s' Hin1 Hloop) as [Hin' Hw'].
    split; [exact Hin' |].
    rewrite Nat2Z.inj_succ, Z.pow_succ_r by lia.
    rewrite inject_Z_mult. change (inject_Z 2) with 2.
    rewrite <- Hw1, <- Hw'. ring.
Qed.

Lemma start_inside (minQuality maxQuality : Q) :
  minQuality < maxQuality ->
  inside minQuality maxQuality (start minQuality maxQuality).
Proof.
  intros H. unfold inside. simpl. repeat split; try lra. constructor.
Qed.

(** The lower end only moves up, the upper end only moves down, and they
    do not cross. *)
Lemma loop_ordered (n : nat) (T : Z) :
  forall s s',
  low s <= high s ->
  loop n T s = Some s' ->
  low s <= low s' /\ low s' <= high s' /\ high s' <= high s.
Proof.
  induction n as [| n IH]; intros s s' Hle; simpl loop.
  - intros H. inversion H; subst s'. repeat split; lra.
  - destruct (iteration T s) as [s1 |] eqn:Hit; [| discriminate].
    intros Hloop.
    assert (Hm1 : low s <= (low s + high s) / 2)
      by (apply Qle_shift_div_l; lra).
    assert (Hm2 : (low s + high s) / 2 <= high s)
      by (apply Qle_shift_div_r; lra).
    destruct (iteration_cases T s s1 Hit) as (blob & _ & [[_ E] | [_ E]]);
      subst s1; apply IH in Hloop; try (simpl; lra);
      destruct Hloop as (H1 & H2 & H3); simpl in *; repeat split; lra.
Qed.

(** A larger budget never leaves the search at a lower quality. *)
Lemma loop_budget_monotone (n : nat) (T1 T2 : Z) :
  (T1 <= T2)%Z ->
  forall s s1 s2,
  low s <= high s ->
  loop n T1 s = Some s1 ->
  loop n T2 s = Some s2 ->
  low s1 <= low s2.
Proof.
  intros HT. induction n as [| n IH]; intros s s1 s2 Hle; simpl loop.
  - intros H1 H2. inversion H1; inversion H2; subst. lra.
  - destruct (iteration T1 s) as [u1 |] eqn:Hit1; [| discriminate].
    destruct (iteration T2 s) as [u2 |] eqn:Hit2; [| discriminate].
    intros H1 H2.
    assert (Hm1 : low s <= (low s + high s) / 2)
      by (apply Qle_shift_div_l; lra).
    assert (Hm2 : (low s + high s) / 2 <= high s)
      by (apply Qle_shift_div_r; lra).
    destruct (iteration_cases T1 s u1 Hit1) as (b1 & Hb1 & C1).
    destruct (iteration_cases T2 s u2 Hit2) as (b2 & Hb2 & C2).
    rewrite Hb1 in Hb2. inversion Hb2; subst b2.
    destruct C1 as [[Hf1 E1] | [Hf1 E1]];
      destruct C2 as [[Hf2 E2] | [Hf2 E2]]; subst u1 u2.
    + eapply IH; [| exact H1 | exact H2]. simpl. lra.
    + lia.
    + apply loop_ordered in H1; [| simpl; lra].
      apply loop_ordered in H2; [| simpl; lra].
      simpl in *. lra.
    + eapply IH; [| exact H1 | exact H2]. simpl. lra.
Qed.

(** The ghost quality is the quality of the best blob, and it is where
    the lower end of the interval stands. *)
Definition tagged (minQuality : Q) (s : Search Blob) : Prop :=
  match bestBlob s, bestQuality s with
  | Some blob, Some q => canvasToBlob q = Some blob /\ q = low s
  | None, None => low s = minQuality
  | _, _ => False
  end.

Lemma loop_tagged (n : nat) (T : Z) (minQuality : Q) :
  forall s s',
  tagged minQuality s -> loop n T s = Some s' -> tagged minQuality s'.
Proof.
  induction n as [| n IH]; intros s s' Htag; simpl loop.
  - intros H. now inversion H; subst s'.
  - destruct (iteration T s) as [s1 |] eqn:Hit; [| discriminate].
    apply IH.
    destruct (iteration_cases T s s1 Hit) as (blob & Hb & [[_ ->] | [_ ->]]);
      unfold tagged in *; simpl; auto.
Qed.

(** The size of the encoding does not grow when the quality goes down. *)
Definition monotoneEncoder : Prop :=
  forall q1 q2 b1 b2,
    q1 <= q2 -> canvasToBlob q1 = Some b1 -> canvasToBlob q2 = Some b2 ->
    (size b1 <= size b2)%Z.

(** Whatever the encoder, as long as it answers: with a larger budget
    the blob handed back was encoded at a quality at least as high. *)
Lemma returnedQuality_monotone_any_encoder
    (T1 T2 : Z) (minQuality maxQuality : Q) :
  encodes -> minQuality <= maxQuality -> (T1 <= T2)%Z ->
  exists q1 q2 b1 b2,
    returnedQuality T1 minQuality maxQuality = Some q1 /\
    returnedQuality T2 minQuality maxQuality = Some q2 /\
    compressToTargetSize T1 minQuality maxQuality = Some b1 /\
    compressToTargetSize T2 minQuality maxQuality = Some b2 /\
    canvasToBlob q1 = Some b1 /\ canvasToBlob q2 = Some b2 /\
    q1 <= q2.
Proof.
  intros Henc Hle HT.
  unfold Compressor.returnedQuality, Compressor.compressToTargetSize.
  destruct (loop_total 8 T1 (start minQuality maxQuality) Henc) as [s1 H1].
  destruct (loop_total 8 T2 (start minQuality maxQuality) Henc) as [s2 H2].
  rewrite H1, H2.
  assert (Hlow : low s1 <= low s2).
  { eapply loop_budget_monotone; [exact HT | | exact H1 | exact H2].
    simpl. exact Hle. }
  assert (Ht1 : tagged minQuality s1).
  { eapply loop_tagged; [| exact H1]. reflexivity. }
  assert (Ht2 : tagged minQuality s2).
  { eapply loop_tagged; [| exact H2]. reflexivity. }
  assert (Hres : forall s, tagged minQuality s ->
            exists b, finish minQuality s = Some b /\
                      canvasToBlob (qualityOf minQuality s) = Some b /\
                      qualityOf minQuality s = low s).
  { intros s Hs. unfold tagged, Compressor.finish, qualityOf in *.
    destruct (bestBlob s) as [b |], (bestQuality s) as [q |];
      try contradiction.
    - destruct Hs as [Hb Hq]. exists b. now repeat split.
    - destruct (canvasToBlob minQuality) as [b |] eqn:E.
      + exists b. repeat split; congruence.
      + exfalso. exact (Henc _ E). }
  destruct (Hres s1 Ht1) as (b1 & F1 & E1 & L1).
  destruct (Hres s2 Ht2) as (b2 & F2 & E2 & L2).
  exists (qualityOf minQuality s1), (qualityOf minQuality s2), b1, b2.
  repeat split; try assumption.
  rewrite L1, L2. exact Hlow.
Qed.

(** C1. With an encoder that answers, [compressToTargetSize] makes
    exactly 8 probes, each at the midpoint [(low + high) / 2] of the
    interval that starts as [minQuality, maxQuality]; a probe whose
    encoding is at most [targetBytes] becomes the best blob and the new
    [low], any other probe becomes the new [high].  When some probe met
    the budget the result is the encoding at the last such probe, of size
    at most [targetBytes]; when none did, the result is the encoding at
    [minQuality]. *)
Theorem compressToTargetSize_bisects
    (targetBytes : Z) (minQuality maxQuality : Q) :
  encodes ->
  exists s,
    loop 8 targetBytes (start minQuality maxQuality) = Some s /\
    length (probed s) = 8%nat /\
    Bisection targetBytes 8 minQuality maxQuality None
              (probed s) (low s) (high s) (bestBlob s) /\
    match lastFitting targetBytes (probed s) with
    | Some q =>
        In q (probed s) /\
        exists blob,
          canvasToBlob q = Some blob /\
          (size blob <= targetBytes)%Z /\
          bestBlob s = Some blob /\
          compressToTargetSize targetBytes minQuality maxQuality = Some blob
    | None =>
        (forall q, In q (probed s) -> fits targetBytes q = false) /\
        bestBlob s = None /\
        compressToTargetSize targetBytes minQuality maxQuality
        = canvasToBlob minQuality
    end.
Proof.
  intros Henc.
  destruct (loop_total 8 targetBytes (start minQuality maxQuality) Henc)
    as [s Hs].
  destruct (loop_trace 8 targetBytes _ _ Hs) as (tr & Hp & Hlen & Hb & Hbest & _).
  simpl in Hp, Hb, Hbest. subst tr.
  exists s. split; [exact Hs |]. split; [exact Hlen |]. split; [exact Hb |].
  unfold Compressor.compressToTargetSize. rewrite Hs.
  unfold Compressor.finish.
  destruct (lastFitting targetBytes (probed s)) as [q |] eqn:Hlast.
  - destruct (lastFitting_Some targetBytes _ q Hlast) as [Hin Hfit].
    split; [exact Hin |].
    unfold Compressor.fits in Hfit.
    destruct (canvasToBlob q) as [blob |] eqn:Hq; [| discriminate].
    exists blob. rewrite Hbest.
    repeat split; try reflexivity. now apply Z.leb_le.
  - split; [exact (lastFitting_None targetBytes _ Hlast) |].
    rewrite Hbest. split; reflexivity.
Qed.

(** C7. For one bitmap and one encoder whose output does not grow when
    the quality goes down, the quality at which the blob handed back by
    [compressToTargetSize] was encoded does not go down when
    [targetBytes] goes up.  ([returnedQuality_monotone_any_encoder] shows
    that the assumption on the encoder is not used.) *)
Theorem returnedQuality_monotone
    (T1 T2 : Z) (minQuality maxQuality : Q) :
  encodes -> monotoneEncoder ->
  minQuality <= maxQuality -> (T1 <= T2)%Z ->
  exists q1 q2 b1 b2,
    returnedQuality T1 minQuality maxQuality = Some q1 /\
    returnedQuality T2 minQuality maxQuality = Some q2 /\
    compressToTargetSize T1 minQuality maxQuality = Some b1 /\
    compressToTargetSize T2 minQuality maxQuality = Some b2 /\
    canvasToBlob q1 = Some b1 /\ canvasToBlob q2 = Some b2 /\
    q1 <= q2.
Proof.
  intros Henc _. apply returnedQuality_monotone_any_encoder. exact Henc.
Qed.


End Facts.

(** A sample encoder: the blob is its own size, 100000 bytes per unit
    of quality. *)
Definition sampleEncoder (q : Q) : option Z := Some (Qfloor (q * 100000)).

Lemma sampleEncoder_encodes : encodes Z sampleEncoder.
Proof. intros q. discriminate. Qed.

Lemma sampleEncoder_monotone : monotoneEncoder Z (fun b => b) sampleEncoder.
Proof.
  intros q1 q2 b1 b2 Hle H1 H2.
  assert (E1 : b1 = Qfloor (q1 * 100000)) by (unfold sampleEncoder in H1; congruence).
  assert (E2 : b2 = Qfloor (q2 * 100000)) by (unfold sampleEncoder in H2; congruence).
  rewrite E1, E2. apply Qfloor_resp_le. nra.
Qed.

(** The example of the specification, with the sample encoder: a budget
    of 50000 bytes is met at a quality just under 0.5. *)
Example compress_50000 :
  Compressor.compressToTargetSize Z (fun b => b) sampleEncoder
    50000 Compressor.defaultMinQuality Compressor.defaultMaxQuality
  = Some 49843%Z.
Proof. vm_compute. reflexivity. Qed.

Lemma compressToTargetSize_bisects_witness :
  Compressor.compressToTargetSize Z (fun b => b) sampleEncoder
    50000 (1 # 10) (95 # 100) = Some 49843%Z /\
  exists s,
    Compressor.loop Z (fun b => b) sampleEncoder 8 50000
      (Compressor.start Z (1 # 10) (95 # 100)) = Some s /\
    length (probed s) = 8%nat /\
    Compressor.Bisection Z (fun b => b) sampleEncoder 50000 8
      (1 # 10) (95 # 100) None (probed s) (low s) (high s) (bestBlob s) /\
    match Compressor.lastFitting Z (fun b => b) sampleEncoder 50000 (probed s) with
    | Some q =>
        In q (probed s) /\
        exists blob,
          sampleEncoder q = Some blob /\
          (blob <= 50000)%Z /\
          bestBlob s = Some blob /\
          Compressor.compressToTargetSize Z (fun b => b) sampleEncoder
            50000 (1 # 10) (95 # 100) = Some blob
    | None =>
        (forall q, In q (probed s) ->
           Compressor.fits Z (fun b => b) sampleEncoder 50000 q = false) /\
        bestBlob s = None /\
        Compressor.compressToTargetSize Z (fun b => b) sampleEncoder
          50000 (1 # 10) (95 # 100)
        = sampleEncoder (1 # 10)
    end.
Proof.
  split; [vm_compute; reflexivity |].
  apply (compressToTargetSize_bisects Z (fun b => b) sampleEncoder
           50000 (1 # 10) (95 # 100)).
  intros q. discriminate.
Defined.

Lemma returnedQuality_monotone_witness :
  exists q1 q2 b1 b2,
    Compressor.returnedQuality Z (fun b => b) sampleEncoder
      30000 (1 # 10) (95 # 100) = Some q1 /\
    Compressor.returnedQuality Z (fun b => b) sampleEncoder
      50000 (1 # 10) (95 # 100) = Some q2 /\
    Compressor.compressToTargetSize Z (fun b => b) sampleEncoder
      30000 (1 # 10) (95 # 100) = Some b1 /\
    Compressor.compressToTargetSize Z (fun b => b) sampleEncoder
      50000 (1 # 10) (95 # 100) = Some b2 /\
    sampleEncoder q1 = Some b1 /\ sampleEncoder q2 = Some b2 /\
    q1 <= q2.
Proof.
  apply (returnedQuality_monotone Z (fun b => b) sampleEncoder
           30000 50000 (1 # 10) (95 # 100)).
  - intros q. discriminate.
  - exact sampleEncoder_monotone.
  - vm_compute. discriminate.
  - lia.
Defined.


End CompressorFacts.

(** ** The geometry of [processImage] *)

Module FitFacts.

Import Js JsFacts Fit.

Lemma Math_round_nearest (x : Q) : nearest x (Math_round x).
Proof.
  unfold nearest, Math_round. split.
  - apply Qfloor_le.
  - pose proof (Qlt_floor (x + (1 # 2))) as H.
    rewrite inject_Z_plus in H. exact H.
Qed.


Lemma Math_min_le_l (a b : Q) : Math_min a b <= a.
Proof. destruct (Math_min_spec a b) as [[H ->] | [H ->]]; lra. Qed.

Lemma Math_min_le_r (a b : Q) : Math_min a b <= b.
Proof. destruct (Math_min_spec a b) as [[H ->] | [H ->]]; lra. Qed.

(** Scaling a positive length by a factor that does not exceed
    [c / length] gives at most [c]. *)
Lemma scaled_le (n c : Z) (s : Q) :
  (0 < n)%Z -> s <= inject_Z c / inject_Z n -> inject_Z n * s <= inject_Z c.
Proof.
  intros Hn Hs.
  assert (Hpos : 0 < inject_Z n).
  { change 0 with (inject_Z 0). now rewrite <- Zlt_Qlt. }
  assert (E : inject_Z n * (inject_Z c / inject_Z n) == inject_Z c)
    by (field; lra).
  rewrite <- E. nra.
Qed.

(** Centring: half of a non-negative gap, rounded, fits in the gap. *)
Lemma centred_offset (c s : Z) :
  (s <= c)%Z ->
  (0 <= Math_round (inject_Z (c - s) / 2))%Z /\
  (Math_round (inject_Z (c - s) / 2) + s <= c)%Z.
Proof.
  intros H. rewrite Math_round_half.
  assert (H1 : (0 <= (c - s + 1) / 2)%Z) by (apply Z.div_pos; lia).
  assert (H2 : ((c - s + 1) / 2 < c - s + 1)%Z)
    by (apply Z.div_lt_upper_bound; lia).
  lia.
Qed.



(** C6. For a source and a canvas of positive sizes, the scaled image is
    no wider and no taller than the canvas, and placed at its offsets it
    ends inside the canvas. *)
Theorem fitGeometry_inside_canvas
    (sourceWidth sourceHeight canvasW canvasH : Z) :
  (0 < sourceWidth)%Z -> (0 < sourceHeight)%Z ->
  (0 < canvasW)%Z -> (0 < canvasH)%Z ->
  let g := fitGeometry sourceWidth sourceHeight
             {| width := canvasW; height := canvasH |} in
  (scaledWidth g <= canvasW)%Z /\
  (scaledHeight g <= canvasH)%Z /\
  (offsetX g + scaledWidth g <= canvasW)%Z /\
  (offsetY g + scaledHeight g <= canvasH)%Z.
Proof.
  intros Hw Hh _ _. unfold fitGeometry.
  cbn [scale scaledWidth scaledHeight offsetX offsetY width height].
  set (s := Math_min (inject_Z canvasW / inject_Z sourceWidth)
                     (inject_Z canvasH / inject_Z sourceHeight)).
  assert (Hsw : (Math_round (inject_Z sourceWidth * s) <= canvasW)%Z).
  { apply Math_round_le_Z, scaled_le; [exact Hw | apply Math_min_le_l]. }
  assert (Hsh : (Math_round (inject_Z sourceHeight * s) <= canvasH)%Z).
  { apply Math_round_le_Z, scaled_le; [exact Hh | apply Math_min_le_r]. }
  split; [exact Hsw |]. split; [exact Hsh |].
  split; apply centred_offset; assumption.
Qed.

Lemma fitGeometry_inside_canvas_witness :
  let g := fitGeometry 4000 3000 {| width := 2480; height := 3508 |} in
  (scaledWidth g <= 2480)%Z /\
  (scaledHeight g <= 3508)%Z /\
  (offsetX g + scaledWidth g <= 2480)%Z /\
  (offsetY g + scaledHeight g <= 3508)%Z.
Proof.
  apply (fitGeometry_inside_canvas 4000 3000 2480 3508); reflexivity.
Defined.

(** The offsets are not negative either. *)
Lemma fitGeometry_offsets_nonneg
    (sourceWidth sourceHeight canvasW canvasH : Z) :
  (0 < sourceWidth)%Z -> (0 < sourceHeight)%Z ->
  let g := fitGeometry sourceWidth sourceHeight
             {| width := canvasW; height := canvasH |} in
  (0 <= offsetX g)%Z /\ (0 <= offsetY g)%Z.
Proof.
  intros Hw Hh. unfold fitGeometry.
  cbn [scale scaledWidth scaledHeight offsetX offsetY width height].
  split; apply centred_offset, Math_round_le_Z, scaled_le;
    auto using Math_min_le_l, Math_min_le_r.
Qed.

End FitFacts.

(** ** The step-down loop of [resizeImage] *)

Module ResamplerFacts.

Import Resampler.

(** The loop, unfolded once. *)
Lemma stepDown_unfold (targetW targetH : N) (c : Canvas) :
  stepDown targetW targetH c =
  if farFromTarget targetW targetH c
  then halve targetW targetH c
       :: stepDown targetW targetH (halve targetW targetH c)
  else [].
Proof.
  funelim (stepDown targetW targetH c).
  - rewrite Hfar. reflexivity.
  - rewrite e. reflexivity.
Qed.

Lemma halve_above_target (targetW targetH : N) (c : Canvas) :
  (targetW <= width (halve targetW targetH c))%N /\
  (targetH <= height (halve targetW targetH c))%N.
Proof. unfold halve. simpl. lia. Qed.

Lemma last_cons_default {A : Type} (l : list A) (a d d' : A) :
  last (a :: l) d = last (a :: l) d'.
Proof.
  revert a. induction l as [| b l IH]; intros a; [reflexivity |].
  change (last (a :: b :: l) d) with (last (b :: l) d).
  change (last (a :: b :: l) d') with (last (b :: l) d').
  apply IH.
Qed.

(** The canvas the final [drawImage] reads from. *)
Definition lastCanvas (targetW targetH : N) (c : Canvas) : Canvas :=
  last (stepDown targetW targetH c) c.

Lemma stepDown_run (targetW targetH : N) (c : Canvas) :
  (length (stepDown targetW targetH c) <= excess targetW targetH c)%nat /\
  Forall (fun i => (targetW <= width i)%N /\ (targetH <= height i)%N)
         (stepDown targetW targetH c) /\
  farFromTarget targetW targetH (lastCanvas targetW targetH c) = false /\
  (forall k, (k < length (stepDown targetW targetH c))%nat ->
     farFromTarget targetW targetH (Nat.iter k (halve targetW targetH) c) = true /\
     nth_error (stepDown targetW targetH c) k
     = Some (Nat.iter (S k) (halve targetW targetH) c)).
Proof.
  remember (excess targetW targetH c) as m eqn:Hm.
  revert c Hm. induction m as [m IH] using lt_wf_ind. intros c Hm.
  unfold lastCanvas. rewrite stepDown_unfold.
  destruct (farFromTarget targetW targetH c) eqn:Hfar.
  - pose proof (halve_excess targetW targetH c Hfar) as Hdec.
    rewrite <- Hm in Hdec.
    destruct (IH _ Hdec (halve targetW targetH c) eq_refl)
      as (Hlen & Hall & Hlast & Hnth).
    repeat split.
    + simpl. lia.
    + constructor; [apply halve_above_target | exact Hall].
    + unfold lastCanvas in Hlast.
      destruct (stepDown targetW targetH (halve targetW targetH c)) eqn:E.
      * exact Hlast.
      * change (last (halve targetW targetH c :: c0 :: l) c)
          with (last (c0 :: l) c).
        rewrite (last_cons_default l c0 c (halve targetW targetH c)).
        exact Hlast.
    + destruct k as [| k]; [exact Hfar |].
      simpl in H. apply Nat.succ_lt_mono in H.
      destruct (Hnth k H) as [A _].
      rewrite Nat.iter_succ_r. exact A.
    + destruct k as [| k]; [reflexivity |].
      simpl in H. apply Nat.succ_lt_mono in H.
      destruct (Hnth k H) as [_ B].
      simpl nth_error. rewrite B.
      rewrite !Nat.iter_succ_r. reflexivity.
  - repeat split.
    + simpl. lia.
    + constructor.
    + simpl. exact Hfar.
    + simpl in H. lia.
    + simpl in H. lia.
Qed.

(** C4. The step-down loop of the resampler stops: for any source and
    target sizes (positive ones among them) it creates finitely many
    canvases, each the halving of the one before while the loop condition
    holds, none of them narrower or lower than the target, and it leaves
    the loop with the condition false. *)
Theorem stepDown_terminates_above_target
    (naturalWidth naturalHeight targetW targetH : N) :
  let source := {| width := naturalWidth; height := naturalHeight |} in
  let steps := fst (resizeImage naturalWidth naturalHeight targetW targetH) in
  (length steps <= excess targetW targetH source)%nat /\
  Forall (fun i => (targetW <= width i)%N /\ (targetH <= height i)%N) steps /\
  farFromTarget targetW targetH (last steps source) = false /\
  (forall k, (k < length steps)%nat ->
     farFromTarget targetW targetH
       (Nat.iter k (halve targetW targetH) source) = true /\
     nth_error steps k = Some (Nat.iter (S k) (halve targetW targetH) source)) /\
  snd (resizeImage naturalWidth naturalHeight targetW targetH)
  = {| width := targetW; height := targetH |}.
Proof.
  cbv zeta. unfold resizeImage. cbn [fst snd].
  destruct (stepDown_run targetW targetH
              {| width := naturalWidth; height := naturalHeight |})
    as (A & B & C & D).
  repeat split; try assumption; apply D; assumption.
Qed.

(** The example of the specification: 4096 by 4096 down to 300 by 200. *)
Example stepDown_4096 :
  resizeImage 4096 4096 300 200 =
  ([ {| width := 2048; height := 2048 |};
     {| width := 1024; height := 1024 |};
     {| width := 512; height := 512 |};
     {| width := 300; height := 256 |} ],
   {| width := 300; height := 200 |}).
Proof. vm_compute. reflexivity. Qed.

(** Enlarging one side while shrinking the other: the first canvas
    already has the target width. *)
Example stepDown_mixed :
  fst (resizeImage 100 1000 400 100) =
  [ {| width := 400; height := 500 |};
    {| width := 400; height := 250 |};
    {| width := 400; height := 125 |} ].
Proof. vm_compute. reflexivity. Qed.

End ResamplerFacts.

(** ** The crop rectangle under gestures, presets and rotation *)

Module CropFacts.

Import Js JsFacts Crop.

(** The rectangle lies inside the image. *)
Definition contained (imgW imgH : Q) (c : CropArea) : Prop :=
  0 <= x c /\ 0 <= y c /\ x c + width c <= imgW /\ y c + height c <= imgH.

(** The floor of 50 units the resize branches aim at. *)
Definition atLeast50 (c : CropArea) : Prop :=
  50 <= width c /\ 50 <= height c.

(** The corner is not negative and the rectangle is not empty. *)
Definition anchored (c : CropArea) : Prop :=
  0 <= x c /\ 0 <= y c /\ 0 < width c /\ 0 < height c.

Definition hasRatio (r : Q) (c : CropArea) : Prop :=
  width c / height c == r.

(** Case analysis on the comparisons, maxima and minima of a goal. *)
Ltac js_case_max a b :=
  let H := fresh "Hmax" in
  let E := fresh "Emax" in
  destruct (Math_max_spec a b) as [[H E] | [H E]]; rewrite ?E in *; clear E.

Ltac js_case_min a b :=
  let H := fresh "Hmin" in
  let E := fresh "Emin" in
  destruct (Math_min_spec a b) as [[H E] | [H E]]; rewrite ?E in *; clear E.

Ltac js_case_ltb a b :=
  let H := fresh "Hlt" in
  let E := fresh "Eltb" in
  destruct (ltb_spec a b) as [[E H] | [E H]]; rewrite ?E in *; clear E.

Ltac js_cases :=
  repeat match goal with
  | |- context [Math_max ?a ?b] => js_case_max a b
  | |- context [Math_min ?a ?b] => js_case_min a b
  | |- context [ltb ?a ?b] => js_case_ltb a b
  | _ : context [Math_max ?a ?b] |- _ => js_case_max a b
  | _ : context [Math_min ?a ?b] |- _ => js_case_min a b
  | _ : context [ltb ?a ?b] |- _ => js_case_ltb a b
  end.

(** Halving, in the form linear arithmetic reads. *)
Ltac halves :=
  repeat match goal with
  | |- context [?a / 2] => change (a / 2) with (a * (1 # 2))
  end.

Ltac unfold_area :=
  cbn [x y width height set_x set_y set_width set_height] in *.

Lemma dragTo_contained (imgW imgH : Q) (cs : CropArea) (dx dy : Q) :
  contained imgW imgH cs ->
  contained imgW imgH (dragTo imgW imgH cs dx dy).
Proof.
  unfold contained, dragTo. intros (Hx & Hy & Hw & Hh). unfold_area.
  js_cases; repeat split; lra.
Qed.

Lemma dragTo_anchored (imgW imgH : Q) (cs : CropArea) (dx dy : Q) :
  anchored cs -> anchored (dragTo imgW imgH cs dx dy).
Proof.
  unfold anchored, dragTo. intros (Hx & Hy & Hw & Hh). unfold_area.
  js_cases; repeat split; lra.
Qed.

Lemma dragTo_size (imgW imgH : Q) (cs : CropArea) (dx dy : Q) :
  width (dragTo imgW imgH cs dx dy) = width cs /\
  height (dragTo imgW imgH cs dx dy) = height cs.
Proof. split; reflexivity. Qed.

(** Free-form resizing keeps a rectangle that is inside the image and
    at least 50 by 50 that way. *)
Lemma resizeByHandle_free (imgW imgH : Q) (cs : CropArea) (dx dy : Q) (h : Handle) :
  contained imgW imgH cs -> atLeast50 cs ->
  contained imgW imgH (resizeByHandle imgW imgH cs dx dy h) /\
  atLeast50 (resizeByHandle imgW imgH cs dx dy h).
Proof.
  unfold contained, atLeast50. intros (Hx & Hy & Hw & Hh) (Hw50 & Hh50).
  destruct h; unfold resizeByHandle; unfold_area;
    js_cases; unfold_area; repeat split; lra.
Qed.

(** Resizing never moves the corner below zero nor empties the
    rectangle, whatever the size of the image. *)
Lemma resizeByHandle_anchored (imgW imgH : Q) (cs : CropArea) (dx dy : Q) (h : Handle) :
  anchored cs -> anchored (resizeByHandle imgW imgH cs dx dy h).
Proof.
  unfold anchored. intros (Hx & Hy & Hw & Hh).
  destruct h; unfold resizeByHandle; unfold_area;
    js_cases; unfold_area; repeat split; lra.
Qed.

(** From a rectangle inside the image, the resized corner stays
    strictly inside the image. *)
Lemma resizeByHandle_corner (imgW imgH : Q) (cs : CropArea) (dx dy : Q) (h : Handle) :
  contained imgW imgH cs -> anchored cs ->
  x (resizeByHandle imgW imgH cs dx dy h) < imgW /\
  y (resizeByHandle imgW imgH cs dx dy h) < imgH.
Proof.
  unfold contained, anchored. intros (Hx & Hy & Hw & Hh) (_ & _ & Hwp & Hhp).
  destruct h; unfold resizeByHandle; unfold_area;
    js_cases; unfold_area; repeat split; lra.
Qed.

(** Division by a positive ratio. *)
Lemma div_pos (a r : Q) : 0 < a -> 0 < r -> 0 < a / r.
Proof. intros Ha Hr. apply Qlt_shift_div_l; lra. Qed.

Lemma div_mul (a r : Q) : 0 < r -> a / r * r == a.
Proof. intros Hr. field. lra. Qed.

Lemma ratio_div (a r : Q) : 0 < a -> 0 < r -> a / (a / r) == r.
Proof. intros Ha Hr. field. split; lra. Qed.

Lemma ratio_mul (b r : Q) : 0 < b -> b * r / b == r.
Proof. intros Hb. field. lra. Qed.

Lemma mul_lt_of_lt_div (a b r : Q) : 0 < b -> r < a / b -> b * r < a.
Proof.
  intros Hb H. pose proof (div_mul a b Hb) as E.
  set (d := a / b) in *. nra.
Qed.

Lemma div_le_of_div_le (a b r : Q) : 0 < b -> 0 < r -> a / b <= r -> a / r <= b.
Proof.
  intros Hb Hr H. apply Qle_shift_div_r; [exact Hr |].
  pose proof (div_mul a b Hb) as E.
  set (d := a / b) in *. nra.
Qed.

Lemma includes_e_or_w (h : Handle) : includes_e h || includes_w h = true.
Proof. destruct h; reflexivity. Qed.

(** With a fixed ratio: from any resized rectangle whose corner is
    inside the image and whose width is positive, the aspect block
    gives a rectangle inside the image, not empty, of the given ratio. *)
Lemma applyAspectRatio_fixed (imgW imgH : Q) (h : Handle) (r : Q) (c0 : CropArea) :
  0 < r ->
  0 <= x c0 -> x c0 < imgW -> 0 <= y c0 -> y c0 < imgH -> 0 < width c0 ->
  contained imgW imgH (applyAspectRatio imgW imgH h r c0) /\
  anchored (applyAspectRatio imgW imgH h r c0) /\
  hasRatio r (applyAspectRatio imgW imgH h r c0).
Proof.
  intros Hr Hx Hxw Hy Hyh Hw. unfold applyAspectRatio.
  rewrite includes_e_or_w. unfold gtb. unfold_area.
  pose proof (div_pos (width c0) r Hw Hr) as Hh1.
  pose proof (div_mul (width c0) r Hr) as Em1.
  js_case_ltb imgW (x c0 + width c0); unfold_area.
  - assert (Hw2 : 0 < imgW - x c0) by lra.
    pose proof (div_pos _ r Hw2 Hr) as Hh2.
    pose proof (div_mul (imgW - x c0) r Hr) as Em2.
    js_case_ltb imgH (y c0 + (imgW - x c0) / r);
      unfold contained, anchored, hasRatio; unfold_area.
    + set (d := (imgW - x c0) / r) in *.
      repeat split; try lra; try nra. apply ratio_mul. lra.
    + repeat split; try lra. apply ratio_div; assumption.
  - js_case_ltb imgH (y c0 + width c0 / r);
      unfold contained, anchored, hasRatio; unfold_area.
    + set (d := width c0 / r) in *.
      repeat split; try lra; try nra. apply ratio_mul. lra.
    + repeat split; try lra. apply ratio_div; assumption.
Qed.

(** The rectangle of [handlePresetChange]: never larger than the one it
    replaces, not empty, of the new ratio, and inside the image when the
    old one was. *)
Lemma presetCropArea_fixed (img : Image) (c : CropArea) (r : Q) :
  0 < r -> anchored c ->
  let c' := presetCropArea img c r in
  anchored c' /\ hasRatio r c' /\
  (contained (inject_Z (naturalWidth img)) (inject_Z (naturalHeight img)) c ->
   contained (inject_Z (naturalWidth img)) (inject_Z (naturalHeight img)) c').
Proof.
  intros Hr (Hx & Hy & Hw & Hh). unfold presetCropArea, gtb.
  set (W := inject_Z (naturalWidth img)).
  set (H := inject_Z (naturalHeight img)).
  js_case_ltb r (width c / height c); cbv zeta.
  - pose proof (mul_lt_of_lt_div _ _ _ Hh Hlt) as Hsmall.
    assert (Hpos : 0 < height c * r) by nra.
    unfold anchored, hasRatio, contained; unfold_area.
    set (nw := height c * r) in *.
    split; [| split].
    + js_cases; repeat split; lra.
    + apply ratio_mul. exact Hh.
    + intros (_ & _ & Hcw & Hch). js_cases; repeat split; lra.
  - pose proof (div_le_of_div_le _ _ _ Hh Hr Hlt) as Hsmall.
    pose proof (div_pos _ _ Hw Hr) as Hpos.
    unfold anchored, hasRatio, contained; unfold_area.
    split; [| split].
    + set (nh := width c / r) in *. js_cases; repeat split; lra.
    + apply ratio_div; assumption.
    + intros (_ & _ & Hcw & Hch).
      set (nh := width c / r) in *. js_cases; repeat split; lra.
Qed.

(** A preset of the page: free-form, or a positive ratio. *)
Definition validRatio (presetRatio : option Q) : Prop :=
  match presetRatio with
  | Some r => 0 < r
  | None => True
  end.

Lemma truthy_valid (presetRatio : option Q) :
  validRatio presetRatio -> truthy presetRatio = presetRatio.
Proof.
  destruct presetRatio as [r |]; [| reflexivity].
  simpl. intros Hr. destruct (Qeq_bool r 0) eqn:E; [| reflexivity].
  apply Qeq_bool_iff in E. lra.
Qed.

(** The rectangle of the crop-initialising effect. *)
Lemma initialCropArea_good (img : Image) (presetRatio : option Q) :
  (0 < naturalWidth img)%Z -> (0 < naturalHeight img)%Z ->
  validRatio presetRatio ->
  let W := inject_Z (naturalWidth img) in
  let H := inject_Z (naturalHeight img) in
  let c := initialCropArea img presetRatio in
  contained W H c /\ anchored c /\
  match presetRatio with
  | Some r => hasRatio r c
  | None => width c = W * (8 # 10) /\ height c = H * (8 # 10)
  end.
Proof.
  intros HW HH Hvalid. cbv zeta.
  assert (HWq : 0 < inject_Z (naturalWidth img))
    by (change 0 with (inject_Z 0); now rewrite <- Zlt_Qlt).
  assert (HHq : 0 < inject_Z (naturalHeight img))
    by (change 0 with (inject_Z 0); now rewrite <- Zlt_Qlt).
  unfold initialCropArea. rewrite (truthy_valid _ Hvalid).
  set (W := inject_Z (naturalWidth img)) in *.
  set (H := inject_Z (naturalHeight img)) in *.
  destruct presetRatio as [r |]; simpl in Hvalid.
  - unfold gtb.
    assert (HcW : 0 < W * (8 # 10)) by lra.
    assert (HcH : 0 < H * (8 # 10)) by lra.
    assert (HcW' : W * (8 # 10) < W) by lra.
    assert (HcH' : H * (8 # 10) < H) by lra.
    set (cw := W * (8 # 10)) in *. set (ch := H * (8 # 10)) in *.
    clearbody cw ch W H.
    js_case_ltb r (cw / ch); cbv zeta.
    + pose proof (mul_lt_of_lt_div _ _ _ HcH Hlt) as Hsmall.
      assert (Hpos : 0 < ch * r) by nra.
      unfold contained, anchored, hasRatio; unfold_area.
      split; [| split].
      * set (nw := ch * r) in *. clearbody nw. halves. repeat split; lra.
      * set (nw := ch * r) in *. clearbody nw. halves. repeat split; lra.
      * apply ratio_mul. exact HcH.
    + pose proof (div_le_of_div_le _ _ _ HcH Hvalid Hlt) as Hsmall.
      pose proof (div_pos _ _ HcW Hvalid) as Hpos.
      unfold contained, anchored, hasRatio; unfold_area.
      split; [| split].
      * set (nh := cw / r) in *. clearbody nh. halves. repeat split; lra.
      * set (nh := cw / r) in *. clearbody nh. halves. repeat split; lra.
      * apply ratio_div; assumption.
  - unfold contained, anchored; unfold_area. halves.
    repeat split; try lra; reflexivity.
Qed.

(** *** Sessions *)

(** Neither dragging nor resizing: the test that opens [handleMouseMove]. *)
Definition idle (st : State) : bool :=
  negb (isDragging st)
  && match isResizing st with None => true | Some _ => false end.

Definition validRatiob (presetRatio : option Q) : bool :=
  match presetRatio with
  | Some r => ltb 0 r
  | None => true
  end.

(** The events the page can deliver: a preset button is pressed between
    gestures, and carries no ratio or a positive one. *)
Definition allowed (st : State) (e : Event) : bool :=
  match e with
  | PresetChange preset => idle st && validRatiob (ratio preset)
  | _ => true
  end.

Fixpoint wellFormed (st : State) (events : list Event) : bool :=
  match events with
  | [] => true
  | e :: rest => allowed st e && wellFormed (step st e) rest
  end.

(** What a rectangle of the session satisfies, by the preset in force:
    under a ratio it lies inside the image and has that ratio; free-form,
    and when 80% of the image is at least 50 by 50, it lies inside the
    image and is at least 50 by 50. *)
Definition sound (img : Image) (presetRatio : option Q) (c : CropArea) : Prop :=
  let W := inject_Z (naturalWidth img) in
  let H := inject_Z (naturalHeight img) in
  anchored c /\
  match presetRatio with
  | Some r => contained W H c /\ hasRatio r c
  | None =>
      50 <= W * (8 # 10) -> 50 <= H * (8 # 10) ->
      contained W H c /\ atLeast50 c
  end.

Definition Inv (img : Image) (st : State) : Prop :=
  originalImage st = Some img /\
  validRatio (ratio (selectedPreset st)) /\
  sound img (ratio (selectedPreset st)) (cropArea st) /\
  (idle st = false -> sound img (ratio (selectedPreset st)) (cropStart st)).

Lemma validRatiob_valid (presetRatio : option Q) :
  validRatiob presetRatio = true -> validRatio presetRatio.
Proof.
  destruct presetRatio as [r |]; simpl; [apply ltb_true | trivial].
Qed.

Lemma sound_drag (img : Image) (presetRatio : option Q) (cs : CropArea) (dx dy : Q) :
  sound img presetRatio cs ->
  sound img presetRatio
    (dragTo (inject_Z (naturalWidth img)) (inject_Z (naturalHeight img)) cs dx dy).
Proof.
  unfold sound. cbv zeta. intros [Ha Hs]. split.
  - now apply dragTo_anchored.
  - destruct presetRatio as [r |].
    + destruct Hs as [Hc Hr]. split; [now apply dragTo_contained | exact Hr].
    + intros HW HH. destruct (Hs HW HH) as [Hc H50].
      split; [now apply dragTo_contained | exact H50].
Qed.

Lemma sound_resize (img : Image) (presetRatio : option Q) (cs : CropArea)
    (dx dy : Q) (h : Handle) :
  validRatio presetRatio ->
  sound img presetRatio cs ->
  let imgW := inject_Z (naturalWidth img) in
  let imgH := inject_Z (naturalHeight img) in
  sound img presetRatio
    match truthy presetRatio with
    | Some targetRatio =>
        applyAspectRatio imgW imgH h targetRatio
          (resizeByHandle imgW imgH cs dx dy h)
    | None => resizeByHandle imgW imgH cs dx dy h
    end.
Proof.
  intros Hvalid [Ha Hs]. cbv zeta. rewrite (truthy_valid _ Hvalid).
  unfold sound. cbv zeta.
  destruct presetRatio as [r |]; simpl in Hvalid.
  - destruct Hs as [Hc _].
    pose proof (resizeByHandle_anchored
                  (inject_Z (naturalWidth img)) (inject_Z (naturalHeight img))
                  cs dx dy h Ha) as (Hx & Hy & Hw & _).
    pose proof (resizeByHandle_corner
                  (inject_Z (naturalWidth img)) (inject_Z (naturalHeight img))
                  cs dx dy h Hc Ha) as (Hxw & Hyh).
    destruct (applyAspectRatio_fixed _ _ h r _ Hvalid Hx Hxw Hy Hyh Hw)
      as (A & B & C).
    split; [exact B | split; [exact A | exact C]].
  - split; [now apply resizeByHandle_anchored |].
    intros HW HH. destruct (Hs HW HH) as [Hc H50].
    now apply resizeByHandle_free.
Qed.

Lemma sound_initial (img : Image) (presetRatio : option Q) :
  (0 < naturalWidth img)%Z -> (0 < naturalHeight img)%Z ->
  validRatio presetRatio ->
  sound img presetRatio (initialCropArea img presetRatio).
Proof.
  intros HW HH Hvalid.
  destruct (initialCropArea_good img presetRatio HW HH Hvalid) as (Hc & Ha & Hm).
  unfold sound. cbv zeta. split; [exact Ha |].
  destruct presetRatio as [r |].
  - split; assumption.
  - destruct Hm as [Ew Eh]. intros H1 H2. split; [exact Hc |].
    unfold atLeast50. rewrite Ew, Eh. split; assumption.
Qed.

Lemma sameRatio_Some (a : option Q) (r : Q) :
  sameRatio a (Some r) = true -> exists r0, a = Some r0 /\ r0 == r.
Proof.
  destruct a as [r0 |]; simpl; [| discriminate].
  intros H. exists r0. split; [reflexivity | now apply Qeq_bool_iff].
Qed.

(** The rectangle [handlePresetChange] itself sets, between gestures. *)
Lemma sound_preset (img : Image) (st : State) (preset : AspectRatioPreset) (r : Q) :
  Inv img st -> ratio preset = Some r -> 0 < r ->
  cropArea (handlePresetChange st preset) = presetCropArea img (cropArea st) r /\
  anchored (presetCropArea img (cropArea st) r) /\
  hasRatio r (presetCropArea img (cropArea st) r).
Proof.
  intros (Himg & _ & [Ha _] & _) Hr Hpos.
  unfold handlePresetChange. rewrite Himg, Hr.
  rewrite (truthy_valid (Some r) Hpos). simpl cropArea.
  destruct (presetCropArea_fixed img (cropArea st) r Hpos Ha) as (A & B & _).
  split; [reflexivity | split; assumption].
Qed.

Ltac inv_split := unfold Inv; split; [| split; [| split]].

Lemma Inv_step (img : Image) (st : State) (e : Event) :
  (0 < naturalWidth img)%Z -> (0 < naturalHeight img)%Z ->
  Inv img st -> allowed st e = true -> Inv img (step st e).
Proof.
  intros HW HH (Himg & Hvalid & Harea & Hstart) Hallowed.
  destruct e as [cx cy handle | cx cy | | preset | degrees]; simpl step.
  - (* MouseDown *)
    inv_split; simpl; auto.
  - (* MouseMove *)
    unfold handleMouseMove. fold (idle st).
    destruct (idle st) eqn:Hidle.
    { inv_split; auto. rewrite Hidle. discriminate. }
    rewrite Himg. specialize (Hstart eq_refl).
    destruct (isDragging st) eqn:Hdrag.
    + inv_split; simpl; auto. now apply sound_drag.
    + destruct (isResizing st) as [h |] eqn:Hres.
      * inv_split; simpl; auto. now apply sound_resize.
      * unfold idle in Hidle. rewrite Hdrag, Hres in Hidle. discriminate.
  - (* MouseUp *)
    inv_split; simpl; auto. discriminate.
  - (* PresetChange *)
    simpl in Hallowed. apply andb_true_iff in Hallowed.
    destruct Hallowed as [Hidle Hvb]. apply validRatiob_valid in Hvb.
    assert (Hidle1 : idle (handlePresetChange st preset) = true).
    { unfold handlePresetChange, idle in *. rewrite Himg.
      destruct (truthy (ratio preset)); simpl; exact Hidle. }
    assert (Himg1 : originalImage (handlePresetChange st preset) = Some img).
    { unfold handlePresetChange. rewrite Himg.
      destruct (truthy (ratio preset)); simpl; auto. }
    assert (Hsel1 : selectedPreset (handlePresetChange st preset) = preset).
    { unfold handlePresetChange. rewrite Himg.
      destruct (truthy (ratio preset)); reflexivity. }
    destruct (sameRatio (ratio (selectedPreset st)) (ratio preset)) eqn:Hsame.
    + inv_split; rewrite ?Hsel1, ?Hidle1; auto; try discriminate.
      unfold sound. cbv zeta.
      destruct (ratio preset) as [r |] eqn:Hr; simpl in Hvb.
      * destruct (sameRatio_Some _ _ Hsame) as (r0 & Hr0 & Heq).
        rewrite Hr0 in Harea. destruct Harea as [Ha [Hc _]].
        unfold handlePresetChange. rewrite Himg, Hr.
        rewrite (truthy_valid (Some r) Hvb). simpl cropArea.
        destruct (presetCropArea_fixed img (cropArea st) r Hvb Ha)
          as (A & B & C).
        split; [exact A | split; [exact (C Hc) | exact B]].
      * destruct (ratio (selectedPreset st)); [discriminate |].
        unfold handlePresetChange. rewrite Himg, Hr. simpl cropArea.
        exact Harea.
    + unfold initCropEffect. rewrite Himg1, Hsel1.
      inv_split; simpl; rewrite ?Hsel1; auto.
      * apply (sound_initial img (ratio preset) HW HH Hvb).
      * change (idle (setCropArea (handlePresetChange st preset)
                        (initialCropArea img (ratio preset))))
          with (idle (handlePresetChange st preset)).
        rewrite Hidle1. discriminate.
  - (* Rotate *)
    inv_split; simpl; auto.
Qed.

Lemma Inv_session (img : Image) (preset : AspectRatioPreset) :
  (0 < naturalWidth img)%Z -> (0 < naturalHeight img)%Z ->
  validRatio (ratio preset) ->
  Inv img (session img preset).
Proof.
  intros HW HH Hvalid.
  inv_split; simpl; auto; try discriminate.
  apply (sound_initial img (ratio preset) HW HH Hvalid).
Qed.

Lemma Inv_run (img : Image) (events : list Event) :
  (0 < naturalWidth img)%Z -> (0 < naturalHeight img)%Z ->
  forall st,
  Inv img st -> wellFormed st events = true -> Inv img (run st events).
Proof.
  intros HW HH. induction events as [| e rest IH]; intros st Hinv Hwf.
  - exact Hinv.
  - simpl in Hwf. apply andb_true_iff in Hwf. destruct Hwf as [Ha Hrest].
    simpl. apply IH; [| exact Hrest]. now apply Inv_step.
Qed.

Lemma within_tolerance (a r : Q) :
  a == r -> Qabs (a - r) < 1 # 1000000.
Proof.
  intros E. assert (Z0 : a - r == 0) by lra.
  rewrite Z0. reflexivity.
Qed.

(** *** The claims about the rectangle *)

Definition sample : Image := {| naturalWidth := 1000; naturalHeight := 1000 |}.
Definition free : AspectRatioPreset := {| name := "free"%string; ratio := None |}.
Definition wide : AspectRatioPreset :=
  {| name := "16:9"%string; ratio := Some (16 / 9) |}.

(** The example of the specification, on the code: a 1000 by 1000 image
    under 16:9 starts with 800 by 450 at (100, 275); pulling the [se]
    handle by (+500, +10) source units gives 900 by 506.25. *)
Example resize_se_wide :
  let st := run (session sample wide)
              [MouseDown 0 0 (Some se); MouseMove 190 (38 # 10)] in
  x (cropArea (session sample wide)) == 100 /\
  y (cropArea (session sample wide)) == 275 /\
  width (cropArea (session sample wide)) == 800 /\
  height (cropArea (session sample wide)) == 450 /\
  x (cropArea st) == 100 /\ y (cropArea st) == 275 /\
  width (cropArea st) == 900 /\ height (cropArea st) == 50625 # 100.
Proof. vm_compute. repeat split; reflexivity. Qed.


(** A small image fails it without any ratio: 40 by 40 starts at 32 by
    32, and the [se] handle then makes the rectangle 50 wide. *)
Example crop_small_image :
  let tiny := {| naturalWidth := 40; naturalHeight := 40 |} in
  let st := run (session tiny free)
              [MouseDown 0 0 (Some se); MouseMove 10 0] in
  width (cropArea (session tiny free)) == 32 /\
  x (cropArea st) == 4 /\ width (cropArea st) == 50.
Proof. vm_compute. repeat split; reflexivity. Qed.


Definition sampleEvents : list Event :=
  [ MouseDown 0 0 (Some se); MouseMove 190 (38 # 10); MouseUp;
    MouseDown 5 5 None; MouseMove (-300) 40; MouseUp;
    PresetChange free;
    MouseDown 0 0 (Some nw); MouseMove (-100) 200; MouseUp;
    PresetChange wide;
    MouseDown 0 0 (Some sw); MouseMove 400 400 ].


(** C5.  Over every session on an image of positive size, whenever a
    preset with a ratio [r] is in force the rectangle has
    [|width / height - r| < 1e-6] (the quotient is [r] itself): after a
    drag, after a resize by any handle with its clamping, and after a
    change of preset, both for the rectangle [handlePresetChange] sets
    and for the one the crop-initialising effect then sets. *)
Theorem crop_ratio (img : Image) (preset : AspectRatioPreset) (events : list Event) :
  (0 < naturalWidth img)%Z -> (0 < naturalHeight img)%Z ->
  validRatio (ratio preset) ->
  wellFormed (session img preset) events = true ->
  let st := run (session img preset) events in
  (forall r, ratio (selectedPreset st) = Some r ->
     width (cropArea st) / height (cropArea st) == r /\
     Qabs (width (cropArea st) / height (cropArea st) - r) < 1 # 1000000) /\
  (forall p r, ratio p = Some r -> 0 < r ->
     let c := cropArea (handlePresetChange st p) in
     width c / height c == r /\
     Qabs (width c / height c - r) < 1 # 1000000).
Proof.
  intros HW HH Hvalid Hwf. cbv zeta.
  pose proof (Inv_run img events HW HH _ (Inv_session img preset HW HH Hvalid) Hwf)
    as Hinv.
  split.
  - intros r Hr. destruct Hinv as (_ & _ & [_ Hs] & _).
    rewrite Hr in Hs. destruct Hs as [_ Hratio].
    split; [exact Hratio | now apply within_tolerance].
  - intros p r Hp Hr.
    destruct (sound_preset img _ p r Hinv Hp Hr) as (E & _ & Hratio).
    rewrite E. split; [exact Hratio | now apply within_tolerance].
Qed.

Lemma crop_ratio_witness :
  let st := run (session sample wide) sampleEvents in
  (forall r, ratio (selectedPreset st) = Some r ->
     width (cropArea st) / height (cropArea st) == r /\
     Qabs (width (cropArea st) / height (cropArea st) - r) < 1 # 1000000) /\
  (forall p r, ratio p = Some r -> 0 < r ->
     let c := cropArea (handlePresetChange st p) in
     width c / height c == r /\
     Qabs (width c / height c - r) < 1 # 1000000).
Proof.
  apply (crop_ratio sample wide sampleEvents); reflexivity.
Defined.

(** Why presets are taken to change between gestures: [handleMouseMove]
    drags the rectangle saved at pointer-down, so a preset switched in
    the middle of a drag is followed by a rectangle of the old shape. *)
Example preset_change_mid_drag :
  let st := run (session sample free)
              [MouseDown 0 0 None; PresetChange wide; MouseMove 0 0] in
  wellFormed (session sample free)
    [MouseDown 0 0 None; PresetChange wide; MouseMove 0 0] = false /\
  ratio (selectedPreset st) = Some (16 / 9) /\
  width (cropArea st) / height (cropArea st) == 1.
Proof. vm_compute. repeat split; reflexivity. Qed.

(** *** Rotation *)

Lemma step_rotation (st : State) (e : Event) :
  rotation (step st e) =
  match e with
  | Rotate degrees => Z.rem (rotation st + degrees) 360
  | _ => rotation st
  end.
Proof.
  destruct e as [cx cy handle | cx cy | | preset | degrees]; simpl;
    try reflexivity.
  - unfold handleMouseMove.
    destruct (negb (isDragging st) && _); [reflexivity |].
    destruct (originalImage st); [| reflexivity].
    destruct (isDragging st); [reflexivity |].
    destruct (isResizing st); reflexivity.
  - unfold initCropEffect, handlePresetChange.
    destruct (originalImage st), (truthy (ratio preset)),
      (sameRatio (ratio (selectedPreset st)) (ratio preset)); reflexivity.
Qed.







(** *** Extraction *)




End CropFacts.

(** ** More on [compressToTargetSize]: optimality, failures, extremes *)

Module CompressorExtra.

Import Compressor CompressorFacts.

Section Facts.

Variable Blob : Type.
Variable size : Blob -> Z.
Variable canvasToBlob : Q -> option Blob.

Local Abbreviation iteration := (Compressor.iteration Blob size canvasToBlob).
Local Abbreviation loop := (Compressor.loop Blob size canvasToBlob).
Local Abbreviation compressToTargetSize :=
  (Compressor.compressToTargetSize Blob size canvasToBlob).
Local Abbreviation returnedQuality :=
  (Compressor.returnedQuality Blob size canvasToBlob).
Local Abbreviation start := (Compressor.start Blob).
Local Abbreviation encodes := (CompressorFacts.encodes Blob canvasToBlob).
Local Abbreviation monotoneEncoder :=
  (CompressorFacts.monotoneEncoder Blob size canvasToBlob).
Local Abbreviation inside := (CompressorFacts.inside Blob).
Local Abbreviation tagged := (CompressorFacts.tagged Blob canvasToBlob).

(** The upper end of the interval is either still [maxQuality] or a
    quality whose encoding was seen to exceed the budget. *)
Definition capped (T : Z) (maxQuality : Q) (s : Search Blob) : Prop :=
  high s = maxQuality \/
  exists blob, canvasToBlob (high s) = Some blob /\ (T < size blob)%Z.

Lemma loop_capped (n : nat) (T : Z) (maxQuality : Q) :
  forall s s',
  capped T maxQuality s -> loop n T s = Some s' -> capped T maxQuality s'.
Proof.
  induction n as [| n IH]; intros s s' Hc; simpl Compressor.loop.
  - intros H. now inversion H; subst s'.
  - destruct (iteration T s) as [s1 |] eqn:Hit; [| discriminate].
    apply IH.
    destruct (iteration_cases Blob size canvasToBlob T s s1 Hit)
      as (blob & Hb & [[_ ->] | [Hgt ->]]); unfold capped in *; simpl.
    + exact Hc.
    + right. exists blob. split; assumption.
Qed.

(** What the state looks like at the end of a call that handed back a
    blob, without any assumption on the encoder. *)
Lemma compress_Some (T : Z) (minQuality maxQuality : Q) (blob : Blob) :
  compressToTargetSize T minQuality maxQuality = Some blob ->
  exists s,
    loop 8 T (start minQuality maxQuality) = Some s /\
    tagged minQuality s /\
    canvasToBlob (qualityOf minQuality s) = Some blob /\
    qualityOf minQuality s = low s.
Proof.
  unfold Compressor.compressToTargetSize.
  destruct (loop 8 T (start minQuality maxQuality)) as [s |] eqn:Hs;
    [| discriminate].
  intros Hf. exists s. split; [reflexivity |].
  assert (Ht : tagged minQuality s).
  { eapply loop_tagged; [| exact Hs]. reflexivity. }
  split; [exact Ht |].
  unfold CompressorFacts.tagged, Compressor.finish, qualityOf in *.
  destruct (bestBlob s) as [b |], (bestQuality s) as [q |];
    try contradiction.
  - destruct Ht as [Hb Hq]. inversion Hf; subst. split; [assumption | reflexivity].
  - split; [exact Hf | symmetry; exact Ht].
Qed.

(** X1.  With an encoder whose output does not grow when the quality goes
    down, no quality of the range that meets the budget lies more than
    one 256th of the range above the quality of the blob handed back. *)
Theorem returnedQuality_near_optimal
    (T : Z) (minQuality maxQuality q : Q) (blob : Blob) :
  encodes -> monotoneEncoder -> minQuality < maxQuality ->
  q <= maxQuality -> canvasToBlob q = Some blob -> (size blob <= T)%Z ->
  exists best,
    returnedQuality T minQuality maxQuality = Some best /\
    q <= best + (maxQuality - minQuality) / 256.
Proof.
  intros Henc Hmono Hlt Hq Hblob Hfit.
  unfold Compressor.returnedQuality.
  destruct (loop_total Blob size canvasToBlob 8 T (start minQuality maxQuality) Henc) as [s Hs].
  rewrite Hs. exists (qualityOf minQuality s). split; [reflexivity |].
  assert (Ht : tagged minQuality s).
  { eapply loop_tagged; [| exact Hs]. reflexivity. }
  assert (El : qualityOf minQuality s = low s).
  { unfold CompressorFacts.tagged, qualityOf in *.
    destruct (bestBlob s), (bestQuality s); try contradiction;
      [tauto | congruence]. }
  destruct (loop_inside Blob size canvasToBlob 8 T minQuality maxQuality _ _
              (start_inside Blob _ _ Hlt) Hs) as [_ Hw].
  change (inject_Z (2 ^ Z.of_nat 8)) with 256 in Hw.
  change (high (start minQuality maxQuality)) with maxQuality in Hw.
  change (low (start minQuality maxQuality)) with minQuality in Hw.
  assert (Ew : (maxQuality - minQuality) / 256 == high s - low s)
    by (rewrite <- Hw; field).
  rewrite El, Ew.
  assert (Hc : capped T maxQuality s).
  { eapply loop_capped; [| exact Hs]. now left. }
  destruct Hc as [E | (b & Hb & Hgt)].
  - rewrite E. lra.
  - destruct (Qlt_le_dec q (high s)) as [Hlow | Hhigh]; [lra |].
    pose proof (Hmono _ _ _ _ Hhigh Hb Hblob). lia.
Qed.

(** X2.  The blob handed back always comes from the encoder, at a quality of
    the range below [maxQuality]; and a failure of the first probe fails
    the whole call. *)
Theorem compressToTargetSize_result_is_encoding
    (T : Z) (minQuality maxQuality : Q) :
  minQuality < maxQuality ->
  (forall blob,
     compressToTargetSize T minQuality maxQuality = Some blob ->
     exists q, minQuality <= q /\ q < maxQuality /\
               canvasToBlob q = Some blob) /\
  (canvasToBlob ((minQuality + maxQuality) / 2) = None ->
   compressToTargetSize T minQuality maxQuality = None).
Proof.
  intros Hlt. split.
  - intros blob Hres.
    destruct (compress_Some T minQuality maxQuality blob Hres)
      as (s & Hs & _ & Hblob & El).
    destruct (loop_inside Blob size canvasToBlob 8 T minQuality maxQuality _ _
                (start_inside Blob _ _ Hlt) Hs) as [(A & B & C & _) _].
    exists (qualityOf minQuality s). rewrite El at 1 2.
    repeat split; try assumption. lra.
  - intros Hfail. unfold Compressor.compressToTargetSize.
    simpl Compressor.loop. unfold Compressor.iteration at 1.
    simpl low. simpl high. rewrite Hfail. reflexivity.
Qed.

Lemma loop_none_fit (n : nat) (T : Z) :
  (forall q blob, canvasToBlob q = Some blob -> (T < size blob)%Z) ->
  forall s s', loop n T s = Some s' ->
  low s' = low s /\ bestBlob s' = bestBlob s.
Proof.
  intros Hall. induction n as [| n IH]; intros s s'; simpl Compressor.loop.
  - intros H. now inversion H; subst s'.
  - destruct (iteration T s) as [s1 |] eqn:Hit; [| discriminate].
    intros Hloop. destruct (IH _ _ Hloop) as [A B].
    destruct (iteration_cases Blob size canvasToBlob T s s1 Hit)
      as (blob & Hb & [[Hle ->] | [_ ->]]).
    + pose proof (Hall _ _ Hb). lia.
    + simpl in *. split; assumption.
Qed.

Lemma loop_all_fit (n : nat) (T : Z) :
  (forall q blob, canvasToBlob q = Some blob -> (size blob <= T)%Z) ->
  forall s s', loop n T s = Some s' -> high s' = high s.
Proof.
  intros Hall. induction n as [| n IH]; intros s s'; simpl Compressor.loop.
  - intros H. now inversion H; subst s'.
  - destruct (iteration T s) as [s1 |] eqn:Hit; [| discriminate].
    intros Hloop. rewrite (IH _ _ Hloop).
    destruct (iteration_cases Blob size canvasToBlob T s s1 Hit)
      as (blob & Hb & [[_ ->] | [Hgt ->]]).
    + reflexivity.
    + pose proof (Hall _ _ Hb). lia.
Qed.

(** X3.  A budget that no encoding meets: the call hands back the encoding at
    [minQuality], which exceeds the budget. *)
Theorem compressToTargetSize_budget_too_small
    (T : Z) (minQuality maxQuality : Q) :
  encodes ->
  (forall q blob, canvasToBlob q = Some blob -> (T < size blob)%Z) ->
  exists blob,
    compressToTargetSize T minQuality maxQuality = Some blob /\
    canvasToBlob minQuality = Some blob /\
    (T < size blob)%Z /\
    returnedQuality T minQuality maxQuality = Some minQuality.
Proof.
  intros Henc Hall.
  unfold Compressor.compressToTargetSize, Compressor.returnedQuality.
  destruct (loop_total Blob size canvasToBlob 8 T (start minQuality maxQuality) Henc) as [s Hs].
  rewrite Hs.
  destruct (loop_none_fit 8 T Hall _ _ Hs) as [_ Hb]. simpl in Hb.
  assert (Ht : tagged minQuality s).
  { eapply loop_tagged; [| exact Hs]. reflexivity. }
  unfold CompressorFacts.tagged, Compressor.finish, qualityOf in *.
  rewrite Hb in *.
  destruct (bestQuality s); [contradiction |].
  destruct (canvasToBlob minQuality) as [blob |] eqn:E.
  - exists blob. repeat split. exact (Hall _ _ E).
  - exfalso. exact (Henc _ E).
Qed.

(** X4.  A budget that every encoding meets: the call still stops one 256th
    of the range below [maxQuality]. *)
Theorem compressToTargetSize_budget_ample
    (T : Z) (minQuality maxQuality : Q) :
  encodes -> minQuality < maxQuality ->
  (forall q blob, canvasToBlob q = Some blob -> (size blob <= T)%Z) ->
  exists best blob,
    returnedQuality T minQuality maxQuality = Some best /\
    compressToTargetSize T minQuality maxQuality = Some blob /\
    canvasToBlob best = Some blob /\
    best == maxQuality - (maxQuality - minQuality) / 256.
Proof.
  intros Henc Hlt Hall.
  destruct (loop_total Blob size canvasToBlob 8 T (start minQuality maxQuality) Henc) as [s Hs].
  destruct (canvasToBlob ((minQuality + maxQuality) / 2)) as [b0 |] eqn:E0;
    [| exfalso; exact (Henc _ E0)].
  assert (Hres : exists blob,
             compressToTargetSize T minQuality maxQuality = Some blob).
  { unfold Compressor.compressToTargetSize. rewrite Hs.
    unfold Compressor.finish. destruct (bestBlob s) as [b |]; [now exists b |].
    destruct (canvasToBlob minQuality) as [b |] eqn:E; [now exists b |].
    exfalso. exact (Henc _ E). }
  destruct Hres as [blob Hres].
  destruct (compress_Some T minQuality maxQuality blob Hres)
    as (s' & Hs' & _ & Hblob & El).
  rewrite Hs in Hs'. inversion Hs'; subst s'.
  exists (qualityOf minQuality s), blob.
  unfold Compressor.returnedQuality. rewrite Hs.
  repeat split; try assumption.
  rewrite El.
  destruct (loop_inside Blob size canvasToBlob 8 T minQuality maxQuality _ _
              (start_inside Blob _ _ Hlt) Hs) as [_ Hw].
  change (inject_Z (2 ^ Z.of_nat 8)) with 256 in Hw.
  change (high (start minQuality maxQuality)) with maxQuality in Hw.
  change (low (start minQuality maxQuality)) with minQuality in Hw.
  pose proof (loop_all_fit 8 T Hall _ _ Hs) as Eh. simpl in Eh.
  rewrite Eh in Hw. rewrite <- Hw. field.
Qed.

End Facts.

Lemma returnedQuality_near_optimal_witness :
  exists best,
    Compressor.returnedQuality Z (fun b => b) sampleEncoder
      50000 (1 # 10) (95 # 100) = Some best /\
    (1 # 2) <= best + ((95 # 100) - (1 # 10)) / 256.
Proof.
  apply (returnedQuality_near_optimal Z (fun b => b) sampleEncoder
           50000 (1 # 10) (95 # 100) (1 # 2) 50000%Z).
  - intros q. discriminate.
  - exact sampleEncoder_monotone.
  - reflexivity.
  - vm_compute. discriminate.
  - reflexivity.
  - lia.
Defined.

Lemma compressToTargetSize_result_is_encoding_witness :
  (forall blob,
     Compressor.compressToTargetSize Z (fun b => b) sampleEncoder
       50000 (1 # 10) (95 # 100) = Some blob ->
     exists q, (1 # 10) <= q /\ q < (95 # 100) /\
               sampleEncoder q = Some blob) /\
  (sampleEncoder (((1 # 10) + (95 # 100)) / 2) = None ->
   Compressor.compressToTargetSize Z (fun b => b) sampleEncoder
     50000 (1 # 10) (95 # 100) = None).
Proof.
  apply (compressToTargetSize_result_is_encoding Z (fun b => b) sampleEncoder
           50000 (1 # 10) (95 # 100)).
  reflexivity.
Defined.

Lemma compressToTargetSize_budget_too_small_witness :
  exists blob,
    Compressor.compressToTargetSize Z (fun b => b)
      (fun q => Some (Z.max 60000 (Qfloor (q * 100000))))
      50000 (1 # 10) (95 # 100) = Some blob /\
    Some (Z.max 60000 (Qfloor ((1 # 10) * 100000))) = Some blob /\
    (50000 < blob)%Z /\
    Compressor.returnedQuality Z (fun b => b)
      (fun q => Some (Z.max 60000 (Qfloor (q * 100000))))
      50000 (1 # 10) (95 # 100) = Some (1 # 10).
Proof.
  apply (compressToTargetSize_budget_too_small Z (fun b => b)
           (fun q => Some (Z.max 60000 (Qfloor (q * 100000))))
           50000 (1 # 10) (95 # 100)).
  - intros q. discriminate.
  - intros q blob H. injection H as <-. lia.
Defined.

Lemma compressToTargetSize_budget_ample_witness :
  exists best blob,
    Compressor.returnedQuality Z (fun b => b)
      (fun q => Some (Z.min 40000 (Qfloor (q * 100000))))
      50000 (1 # 10) (95 # 100) = Some best /\
    Compressor.compressToTargetSize Z (fun b => b)
      (fun q => Some (Z.min 40000 (Qfloor (q * 100000))))
      50000 (1 # 10) (95 # 100) = Some blob /\
    Some (Z.min 40000 (Qfloor (best * 100000))) = Some blob /\
    best == (95 # 100) - ((95 # 100) - (1 # 10)) / 256.
Proof.
  apply (compressToTargetSize_budget_ample Z (fun b => b)
           (fun q => Some (Z.min 40000 (Qfloor (q * 100000))))
           50000 (1 # 10) (95 # 100)).
  - intros q. discriminate.
  - reflexivity.
  - intros q blob H. injection H as <-. lia.
Defined.

End CompressorExtra.

(** ** More on [processImage]: fill, centring, proportions, orientation *)

Module FitExtra.

Import Js JsFacts Fit FitFacts.

Lemma inject_Z_pos (n : Z) : (0 < n)%Z -> 0 < inject_Z n.
Proof. intros H. change 0 with (inject_Z 0). now rewrite <- Zlt_Qlt. Qed.

(** [Math.round] is the only integer within half a unit, a half going up. *)
Lemma nearest_unique (x : Q) (n : Z) : nearest x n -> Math_round x = n.
Proof.
  intros [H1 H2]. unfold Math_round.
  pose proof (Qfloor_le (x + (1 # 2))) as F1.
  pose proof (Qlt_floor (x + (1 # 2))) as F2.
  rewrite inject_Z_plus in F2. change (inject_Z 1) with 1 in F2.
  assert (A : inject_Z n < inject_Z (Qfloor (x + (1 # 2)) + 1)).
  { rewrite inject_Z_plus. change (inject_Z 1) with 1. lra. }
  assert (B : inject_Z (Qfloor (x + (1 # 2))) < inject_Z (n + 1)).
  { rewrite inject_Z_plus. change (inject_Z 1) with 1. lra. }
  rewrite <- Zlt_Qlt in A, B. lia.
Qed.

Lemma Math_round_exact (x : Q) (n : Z) : x == inject_Z n -> Math_round x = n.
Proof.
  intros E. apply nearest_unique. unfold nearest. rewrite E. split; lra.
Qed.

(** X8.  The scaled image spans the canvas in at least one direction. *)
Theorem fitGeometry_fills_one_side
    (sourceWidth sourceHeight canvasW canvasH : Z) :
  (0 < sourceWidth)%Z -> (0 < sourceHeight)%Z ->
  let g := fitGeometry sourceWidth sourceHeight
             {| width := canvasW; height := canvasH |} in
  (scaledWidth g = canvasW /\ offsetX g = 0%Z) \/
  (scaledHeight g = canvasH /\ offsetY g = 0%Z).
Proof.
  intros Hw Hh. unfold fitGeometry.
  cbn [scale scaledWidth scaledHeight offsetX offsetY width height].
  pose proof (inject_Z_pos _ Hw) as Hwq.
  pose proof (inject_Z_pos _ Hh) as Hhq.
  destruct (Math_min_spec (inject_Z canvasW / inject_Z sourceWidth)
              (inject_Z canvasH / inject_Z sourceHeight)) as [[_ ->] | [_ ->]].
  - right.
    assert (E : Math_round (inject_Z sourceHeight
                            * (inject_Z canvasH / inject_Z sourceHeight))
                = canvasH).
    { apply Math_round_exact. field. lra. }
    rewrite E. split; [reflexivity |].
    rewrite Z.sub_diag. reflexivity.
  - left.
    assert (E : Math_round (inject_Z sourceWidth
                            * (inject_Z canvasW / inject_Z sourceWidth))
                = canvasW).
    { apply Math_round_exact. field. lra. }
    rewrite E. split; [reflexivity |].
    rewrite Z.sub_diag. reflexivity.
Qed.

Lemma fitGeometry_fills_one_side_witness :
  let g := fitGeometry 4000 3000 {| width := 2480; height := 3508 |} in
  (scaledWidth g = 2480%Z /\ offsetX g = 0%Z) \/
  (scaledHeight g = 3508%Z /\ offsetY g = 0%Z).
Proof.
  apply (fitGeometry_fills_one_side 4000 3000 2480 3508); reflexivity.
Defined.

(** X9.  The image is centred: the margin on the right (below) is not
    negative, not larger than the one on the left (above), and smaller
    by one pixel at most. *)
Theorem fitGeometry_centred
    (sourceWidth sourceHeight canvasW canvasH : Z) :
  (0 < sourceWidth)%Z -> (0 < sourceHeight)%Z ->
  let g := fitGeometry sourceWidth sourceHeight
             {| width := canvasW; height := canvasH |} in
  let right := (canvasW - scaledWidth g - offsetX g)%Z in
  let below := (canvasH - scaledHeight g - offsetY g)%Z in
  (0 <= right <= offsetX g)%Z /\ (offsetX g <= right + 1)%Z /\
  (0 <= below <= offsetY g)%Z /\ (offsetY g <= below + 1)%Z.
Proof.
  intros Hw Hh. unfold fitGeometry.
  cbn [scale scaledWidth scaledHeight offsetX offsetY width height].
  set (s := Math_min (inject_Z canvasW / inject_Z sourceWidth)
                     (inject_Z canvasH / inject_Z sourceHeight)).
  assert (Hsw : (Math_round (inject_Z sourceWidth * s) <= canvasW)%Z).
  { apply Math_round_le_Z, scaled_le; [exact Hw | apply Math_min_le_l]. }
  assert (Hsh : (Math_round (inject_Z sourceHeight * s) <= canvasH)%Z).
  { apply Math_round_le_Z, scaled_le; [exact Hh | apply Math_min_le_r]. }
  rewrite !Math_round_half.
  set (sw := Math_round (inject_Z sourceWidth * s)) in *.
  set (sh := Math_round (inject_Z sourceHeight * s)) in *.
  clearbody sw sh. cbv zeta.
  pose proof (Z.div_mod (canvasW - sw + 1) 2 ltac:(lia)) as D1.
  pose proof (Z.mod_pos_bound (canvasW - sw + 1) 2 ltac:(lia)) as M1.
  pose proof (Z.div_mod (canvasH - sh + 1) 2 ltac:(lia)) as D2.
  pose proof (Z.mod_pos_bound (canvasH - sh + 1) 2 ltac:(lia)) as M2.
  lia.
Qed.

Lemma fitGeometry_centred_witness :
  let g := fitGeometry 4000 3000 {| width := 1080; height := 1080 |} in
  let right := (1080 - scaledWidth g - offsetX g)%Z in
  let below := (1080 - scaledHeight g - offsetY g)%Z in
  (0 <= right <= offsetX g)%Z /\ (offsetX g <= right + 1)%Z /\
  (0 <= below <= offsetY g)%Z /\ (offsetY g <= below + 1)%Z.
Proof.
  apply (fitGeometry_centred 4000 3000 1080 1080); reflexivity.
Defined.

(** X10.  The scaled size keeps the proportions of the source up to the
    rounding of each side by half a pixel. *)
Theorem fitGeometry_keeps_proportions
    (sourceWidth sourceHeight canvasW canvasH : Z) :
  (0 < sourceWidth)%Z -> (0 < sourceHeight)%Z ->
  let g := fitGeometry sourceWidth sourceHeight
             {| width := canvasW; height := canvasH |} in
  Qabs (inject_Z (scaledWidth g) * inject_Z sourceHeight
        - inject_Z (scaledHeight g) * inject_Z sourceWidth)
  <= (inject_Z sourceWidth + inject_Z sourceHeight) / 2.
Proof.
  intros Hw Hh. unfold fitGeometry.
  cbn [scale scaledWidth scaledHeight offsetX offsetY width height].
  set (s := Math_min (inject_Z canvasW / inject_Z sourceWidth)
                     (inject_Z canvasH / inject_Z sourceHeight)).
  pose proof (inject_Z_pos _ Hw) as Hwq.
  pose proof (inject_Z_pos _ Hh) as Hhq.
  destruct (Math_round_nearest (inject_Z sourceWidth * s)) as [A1 A2].
  destruct (Math_round_nearest (inject_Z sourceHeight * s)) as [B1 B2].
  set (sw := inject_Z (Math_round (inject_Z sourceWidth * s))) in *.
  set (sh := inject_Z (Math_round (inject_Z sourceHeight * s))) in *.
  set (w := inject_Z sourceWidth) in *. set (h := inject_Z sourceHeight) in *.
  clearbody sw sh w h s.
  change ((w + h) / 2) with ((w + h) * (1 # 2)).
  apply Qabs_Qle_condition. split; nra.
Qed.

Lemma fitGeometry_keeps_proportions_witness :
  let g := fitGeometry 4000 3000 {| width := 2480; height := 3508 |} in
  Qabs (inject_Z (scaledWidth g) * inject_Z 3000
        - inject_Z (scaledHeight g) * inject_Z 4000)
  <= (inject_Z 4000 + inject_Z 3000) / 2.
Proof.
  apply (fitGeometry_keeps_proportions 4000 3000 2480 3508); reflexivity.
Defined.

(** X11.  On A4 the orientation picked from the shape of the source never
    gives a smaller scale than the other orientation would. *)
Theorem detectOrientation_best_scale
    (sourceWidth sourceHeight : Z) (other : Orientation) :
  (0 < sourceWidth)%Z -> (0 < sourceHeight)%Z ->
  let auto := processImage sourceWidth sourceHeight
                {| opt_outputFormat := a4; opt_orientation := None |} in
  let forced := processImage sourceWidth sourceHeight
                  {| opt_outputFormat := a4; opt_orientation := Some other |} in
  scale (geometry forced) <= scale (geometry auto).
Proof.
  intros Hw Hh. cbv zeta. unfold processImage, detectOrientation.
  cbn [opt_orientation opt_outputFormat geometry].
  pose proof (inject_Z_pos _ Hw) as Hwq.
  pose proof (inject_Z_pos _ Hh) as Hhq.
  assert (D : forall a b c : Q, 0 < c -> a <= b -> a / c <= b / c).
  { intros a b c Hc Hab. apply Qle_shift_div_l; [exact Hc |].
    assert (E : a / c * c == a) by (field; lra). rewrite E. exact Hab. }
  assert (S : forall a c d : Q, 0 < a -> 0 < c -> c <= d -> a / d <= a / c).
  { intros a c d Ha Hc Hcd. apply Qle_shift_div_l; [exact Hc |].
    assert (E : a / d * d == a) by (field; lra).
    assert (P : 0 < a / d) by (apply Qlt_shift_div_l; lra).
    set (t := a / d) in *. clearbody t. nra. }
  destruct (sourceWidth >? sourceHeight)%Z eqn:Hcmp.
  - (* wide source: landscape *)
    apply Z.gtb_lt in Hcmp.
    assert (Hq : inject_Z sourceHeight <= inject_Z sourceWidth)
      by (rewrite <- Zle_Qle; lia).
    destruct other; unfold getCanvasDimensions, fitGeometry;
      cbn [scale width height A4_PORTRAIT A4_LANDSCAPE]; [| lra].
    pose proof (Math_min_le_l (inject_Z 2480 / inject_Z sourceWidth)
                  (inject_Z 3508 / inject_Z sourceHeight)) as P1.
    pose proof (D (inject_Z 2480) (inject_Z 3508) _ Hwq ltac:(reflexivity || (vm_compute; discriminate))) as P2.
    pose proof (S (inject_Z 2480) _ _ ltac:(reflexivity) Hhq Hq) as P3.
    destruct (Math_min_spec (inject_Z 3508 / inject_Z sourceWidth)
                (inject_Z 2480 / inject_Z sourceHeight)) as [[_ ->] | [_ ->]];
      lra.
  - (* tall or square source: portrait *)
    rewrite Z.gtb_ltb in Hcmp. apply Z.ltb_ge in Hcmp.
    assert (Hq : inject_Z sourceWidth <= inject_Z sourceHeight)
      by (rewrite <- Zle_Qle; lia).
    destruct other; unfold getCanvasDimensions, fitGeometry;
      cbn [scale width height A4_PORTRAIT A4_LANDSCAPE]; [lra |].
    pose proof (Math_min_le_r (inject_Z 3508 / inject_Z sourceWidth)
                  (inject_Z 2480 / inject_Z sourceHeight)) as P1.
    pose proof (D (inject_Z 2480) (inject_Z 3508) _ Hhq ltac:(vm_compute; discriminate)) as P2.
    pose proof (S (inject_Z 2480) _ _ ltac:(reflexivity) Hwq Hq) as P3.
    destruct (Math_min_spec (inject_Z 2480 / inject_Z sourceWidth)
                (inject_Z 3508 / inject_Z sourceHeight)) as [[_ ->] | [_ ->]];
      lra.
Qed.

Lemma detectOrientation_best_scale_witness :
  let auto := processImage 4000 3000
                {| opt_outputFormat := a4; opt_orientation := None |} in
  let forced := processImage 4000 3000
                  {| opt_outputFormat := a4; opt_orientation := Some portrait |} in
  scale (geometry forced) <= scale (geometry auto).
Proof.
  apply (detectOrientation_best_scale 4000 3000 portrait); reflexivity.
Defined.

Lemma Qfloor_lt_Z (x : Q) (n : Z) : (Qfloor x < n)%Z <-> x < inject_Z n.
Proof.
  split; intros H.
  - pose proof (Qlt_floor x) as F.
    assert (L : inject_Z (Qfloor x + 1) <= inject_Z n)
      by (rewrite <- Zle_Qle; lia).
    lra.
  - pose proof (Qfloor_le x) as F.
    assert (L : inject_Z (Qfloor x) < inject_Z n) by lra.
    now rewrite <- Zlt_Qlt in L.
Qed.

(** X12.  The low-resolution warning of the A4 preview is shown exactly when
    the scale is under 299/600, that is only for sources that are shrunk
    to less than half: a source at most twice as wide and twice as high
    as the page never gets it, however small it is; the square format
    never shows it. *)
Theorem dpiWarning_threshold
    (sourceWidth sourceHeight : Z) (requested : option Orientation) :
  (0 < sourceWidth)%Z -> (0 < sourceHeight)%Z ->
  let page := processImage sourceWidth sourceHeight
                {| opt_outputFormat := a4; opt_orientation := requested |} in
  let square := processImage sourceWidth sourceHeight
                  {| opt_outputFormat := whatsapp_dp;
                     opt_orientation := requested |} in
  (dpiWarning page = true <-> scale (geometry page) < 299 # 600) /\
  ((sourceWidth <= 2 * canvasWidth page)%Z ->
   (sourceHeight <= 2 * canvasHeight page)%Z ->
   dpiWarning page = false) /\
  dpiWarning square = false.
Proof.
  intros Hw Hh. cbv zeta.
  pose proof (inject_Z_pos _ Hw) as Hwq.
  pose proof (inject_Z_pos _ Hh) as Hhq.
  set (page := processImage sourceWidth sourceHeight
                 {| opt_outputFormat := a4; opt_orientation := requested |}).
  assert (Hiff : dpiWarning page = true <-> scale (geometry page) < 299 # 600).
  { unfold dpiWarning. change (outputFormat page) with a4. cbv iota.
    rewrite Z.ltb_lt. unfold effectiveDPI, Math_round, A4_DPI.
    rewrite Qfloor_lt_Z. change (inject_Z 150) with 150. split; intros H; lra. }
  split; [exact Hiff |]. split; [| reflexivity].
  intros H1 H2.
  apply not_true_is_false. intros E. apply (proj1 Hiff) in E.
  assert (Hhalf : 1 # 2 <= scale (geometry page)).
  { unfold page, processImage.
    cbn [geometry canvasWidth canvasHeight opt_outputFormat] in *.
    unfold fitGeometry. cbn [scale].
    set (cd := getCanvasDimensions a4 _) in *.
    assert (A : inject_Z sourceWidth <= 2 * inject_Z (width cd)).
    { change 2 with (inject_Z 2). rewrite <- inject_Z_mult, <- Zle_Qle. exact H1. }
    assert (B : inject_Z sourceHeight <= 2 * inject_Z (height cd)).
    { change 2 with (inject_Z 2). rewrite <- inject_Z_mult, <- Zle_Qle. exact H2. }
    destruct (Math_min_spec (inject_Z (width cd) / inject_Z sourceWidth)
                (inject_Z (height cd) / inject_Z sourceHeight))
      as [[_ ->] | [_ ->]]; apply Qle_shift_div_l; lra. }
  lra.
Qed.

Lemma dpiWarning_threshold_witness :
  let page := processImage 100 80
                {| opt_outputFormat := a4; opt_orientation := None |} in
  let square := processImage 100 80
                  {| opt_outputFormat := whatsapp_dp;
                     opt_orientation := None |} in
  (dpiWarning page = true <-> scale (geometry page) < 299 # 600) /\
  ((100 <= 2 * canvasWidth page)%Z ->
   (80 <= 2 * canvasHeight page)%Z ->
   dpiWarning page = false) /\
  dpiWarning square = false.
Proof.
  apply (dpiWarning_threshold 100 80 None); reflexivity.
Defined.

End FitExtra.

(** ** File names and upload checks *)

Module FilesFacts.

Import Files.

Local Open Scope string_scope.

Lemma append_assoc (a b c : string) : (a ++ b) ++ c = a ++ (b ++ c).
Proof. induction a as [| x a IH]; simpl; [reflexivity | now rewrite IH]. Qed.

Lemma allExtensionChars_dot (a b : string) :
  allExtensionChars (a ++ String "." b) = false.
Proof.
  induction a as [| x a IH]; simpl.
  - reflexivity.
  - rewrite IH. apply andb_false_r.
Qed.

Lemma extensionBody_dot (a b : string) :
  extensionBody (a ++ String "." b) = false.
Proof.
  destruct a as [| x a].
  - reflexivity.
  - change (extensionBody (String x a ++ String "." b))
      with (allExtensionChars (String x (a ++ String "." b))).
    simpl. rewrite allExtensionChars_dot. apply andb_false_r.
Qed.

(** A last extension is cut off, whatever comes before it. *)
Lemma stripExtension_cuts (base ext : string) :
  extensionBody ext = true ->
  stripExtension (base ++ String "." ext) = base.
Proof.
  intros Hext. induction base as [| x base IH]; simpl.
  - rewrite Hext. reflexivity.
  - rewrite extensionBody_dot, andb_false_r. now rewrite IH.
Qed.

(** Without a last extension the name is left as it is. *)
Lemma stripExtension_keeps (s : string) :
  (forall base ext, s = base ++ String "." ext -> extensionBody ext = false) ->
  stripExtension s = s.
Proof.
  induction s as [| x s IH]; intros Hno; simpl; [reflexivity |].
  destruct (Ascii.eqb x "." && extensionBody s) eqn:E.
  - apply andb_true_iff in E. destruct E as [Ex Eb].
    apply Ascii.eqb_eq in Ex. subst x.
    rewrite (Hno EmptyString s eq_refl) in Eb. discriminate.
  - f_equal. apply IH. intros base ext Hs.
    apply (Hno (String x base) ext). simpl. now rewrite Hs.
Qed.

Lemma stripExtension_prefix (s : string) :
  exists rest, s = stripExtension s ++ rest.
Proof.
  induction s as [| x s [rest IH]]; simpl.
  - now exists EmptyString.
  - destruct (Ascii.eqb x "." && extensionBody s).
    + now exists (String x s).
    + exists rest. simpl. now rewrite <- IH.
Qed.

(** X13.  What [name.replace(/\.[^/.]+$/, '')] does to every name: it cuts a
    final dot followed by one or more characters other than dot and
    slash, and nothing else; a name without such an ending (no dot, a
    dot at the very end, a slash after the last dot) is left as it is;
    the result is always a beginning of the name. *)
Theorem stripExtension_spec (s : string) :
  (forall base ext,
     s = base ++ String "." ext -> extensionBody ext = true ->
     stripExtension s = base) /\
  ((forall base ext, s = base ++ String "." ext -> extensionBody ext = false) ->
   stripExtension s = s) /\
  (exists rest, s = stripExtension s ++ rest).
Proof.
  split; [| split].
  - intros base ext -> Hext. now apply stripExtension_cuts.
  - apply stripExtension_keeps.
  - apply stripExtension_prefix.
Qed.

(** Edge cases of the same function, on names a user may have. *)
Example stripExtension_examples :
  stripExtension "photo.jpeg" = "photo" /\
  stripExtension "archive.tar.gz" = "archive.tar" /\
  stripExtension "README" = "README" /\
  stripExtension "photo." = "photo." /\
  stripExtension ".hidden" = "" /\
  stripExtension "v1.2/file" = "v1.2/file".
Proof. repeat split; reflexivity. Qed.

(** X14.  The names the three download handlers build are the stripped name,
    a tag, and an extension that the same stripping removes again: the
    extension is [jpg], [png] or [webp] and never swallows the tag. *)
Theorem download_names_strip_back
    (originalName : string) (format : ExportFormat)
    (outputFormat : Fit.OutputFormat)
    (compressFormat : CompressPage.OutputFormat) (fileType : string) :
  let base := stripExtension originalName in
  let suffix := match outputFormat with
                | Fit.whatsapp_dp => "whatsapp-dp"
                | Fit.a4 => "a4"
                end in
  stripExtension (generateFilename originalName format outputFormat)
  = base ++ "-" ++ suffix /\
  stripExtension (croppedFilename originalName format)
  = base ++ "-cropped" /\
  stripExtension (CompressPage.downloadName originalName compressFormat fileType)
  = base ++ "-compressed".
Proof.
  cbv zeta. unfold generateFilename, croppedFilename, CompressPage.downloadName.
  repeat split.
  - rewrite <- (stripExtension_cuts
                  (stripExtension originalName ++ "-" ++
                   match outputFormat with
                   | Fit.whatsapp_dp => "whatsapp-dp"
                   | Fit.a4 => "a4"
                   end)
                  match format with jpeg => "jpg" | png => "png" end)
      by (destruct format; reflexivity).
    f_equal. rewrite !append_assoc. reflexivity.
  - rewrite <- (stripExtension_cuts
                  (stripExtension originalName ++ "-cropped")
                  match format with jpeg => "jpg" | png => "png" end)
      by (destruct format; reflexivity).
    f_equal. rewrite !append_assoc. reflexivity.
  - rewrite <- (stripExtension_cuts
                  (stripExtension originalName ++ "-compressed")
                  (CompressPage.downloadExtension compressFormat fileType)).
    + f_equal. rewrite !append_assoc. reflexivity.
    + unfold CompressPage.downloadExtension.
      destruct compressFormat; try reflexivity.
      destruct (fileType =? "image/png"); [reflexivity |].
      destruct (fileType =? "image/webp"); reflexivity.
Qed.

Section Upload.

Variable toLowerCase : string -> string.

Lemma includes_HEIC (t : string) :
  includes HEIC_FORMATS t = true -> includes SUPPORTED_FORMATS t = true.
Proof.
  unfold includes, HEIC_FORMATS, SUPPORTED_FORMATS. simpl.
  destruct (String.eqb_spec t "image/heic") as [-> | _]; [reflexivity |].
  destruct (String.eqb_spec t "image/heif") as [-> | _]; [reflexivity |].
  discriminate.
Qed.

(** X15.  Whatever [toLowerCase] does: a file that [isHeicFile] takes for
    HEIC passes [isSupportedFormat], and [validateFile] lets it through
    when it is at most 20 MiB and rejects it for its size, not its
    format, when it is larger. *)
Theorem heic_files_are_accepted (file : File) :
  isHeicFile toLowerCase file = true ->
  isSupportedFormat toLowerCase file = true /\
  ((size file <= 20971520)%Z -> validateFile toLowerCase file = None) /\
  ((20971520 < size file)%Z ->
   validateFile toLowerCase file
   = Some "File too large. Maximum size is 20MB").
Proof.
  intros Hh.
  assert (Hs : isSupportedFormat toLowerCase file = true).
  { unfold isHeicFile, isSupportedFormat in *.
    destruct (includes HEIC_FORMATS (type file)) eqn:Et.
    - now rewrite (includes_HEIC _ Et).
    - destruct (includes SUPPORTED_FORMATS (type file)); [reflexivity |].
      cbv zeta in *. apply orb_true_iff in Hh.
      destruct Hh as [E | E]; apply String.eqb_eq in E; rewrite E;
        reflexivity. }
  split; [exact Hs |].
  unfold validateFile. rewrite Hs. simpl negb. cbv iota.
  split; intros Hsz.
  - replace (size file >? MAX_FILE_SIZE)%Z with false; [reflexivity |].
    symmetry. rewrite Z.gtb_ltb. apply Z.ltb_ge. unfold MAX_FILE_SIZE. lia.
  - replace (size file >? MAX_FILE_SIZE)%Z with true; [reflexivity |].
    symmetry. rewrite Z.gtb_ltb. apply Z.ltb_lt. unfold MAX_FILE_SIZE. lia.
Qed.

(** The format is checked before the size: a file of an unknown type
    and extension gets the format message however large it is, and a
    file is let through exactly when its format is known and it is at
    most 20 MiB. *)
Theorem validateFile_verdicts (file : File) :
  (isSupportedFormat toLowerCase file = false ->
   validateFile toLowerCase file
   = Some "Unsupported format. Please use JPG, PNG, WebP, or HEIC") /\
  (validateFile toLowerCase file = None <->
   isSupportedFormat toLowerCase file = true /\ (size file <= 20971520)%Z).
Proof.
  unfold validateFile. split.
  - intros ->. reflexivity.
  - destruct (isSupportedFormat toLowerCase file); simpl negb; cbv iota.
    + rewrite Z.gtb_ltb.
      destruct (Z.ltb_spec MAX_FILE_SIZE (size file)) as [H | H];
        unfold MAX_FILE_SIZE in H; split.
      * discriminate.
      * intros [_ H']. lia.
      * intros _. split; [reflexivity | lia].
      * reflexivity.
    + split; [discriminate | intros [H _]; discriminate].
Qed.

End Upload.

(** A lower-casing of the letters A to Z, for the examples. *)
Definition lowerAscii (c : ascii) : ascii :=
  let n := nat_of_ascii c in
  if (65 <=? n)%nat && (n <=? 90)%nat then ascii_of_nat (n + 32) else c.

Fixpoint lower (s : string) : string :=
  match s with
  | EmptyString => EmptyString
  | String c rest => String (lowerAscii c) (lower rest)
  end.

Lemma heic_files_are_accepted_witness :
  let file := {| name := "IMG_0042.HEIC"; type := ""; size := 3145728 |} in
  isSupportedFormat lower file = true /\
  ((size file <= 20971520)%Z -> validateFile lower file = None) /\
  ((20971520 < size file)%Z ->
   validateFile lower file = Some "File too large. Maximum size is 20MB").
Proof.
  apply (heic_files_are_accepted lower
           {| name := "IMG_0042.HEIC"; type := ""; size := 3145728 |}).
  reflexivity.
Defined.

(** The extension is the last piece after a dot, and the whole name
    when there is no dot. *)
Example extension_examples :
  pop (split_dot "a.tar.gz") = "gz" /\
  pop (split_dot "heic") = "heic" /\
  pop (split_dot "photo.") = "" /\
  pop (split_dot "") = "" /\
  isHeicFile lower {| name := "heic"; type := ""; size := 1 |} = true /\
  isHeicFile lower {| name := "a.heic.jpg"; type := "image/jpeg"; size := 1 |}
  = false.
Proof. repeat split; reflexivity. Qed.

End FilesFacts.

(** ** The CompressImage page *)

Module CompressPageFacts.

Import Js JsFacts CompressPage.

Local Open Scope string_scope.

(** The extension that goes with a MIME type. *)
Definition extensionOf (m : MimeType) : string :=
  match m with
  | image_jpeg => "jpg"
  | image_webp => "webp"
  | image_png => "png"
  end.

(** X5.  The download gets the extension of the format the canvas was encoded
    in, for every choice of output format and type of the original file;
    the search on the quality is used exactly in target-size mode when
    that format is not PNG, and then with [targetSizeKB * 1024] bytes. *)
Theorem download_extension_matches_encoding
    (mode : CompressionMode) (quality targetSizeKB : Z)
    (outputFormat : OutputFormat) (fileType : string) :
  let m := mimeTypeOf outputFormat fileType in
  downloadExtension outputFormat fileType = extensionOf m /\
  (m = image_png <-> outputFormat = original /\ fileType = "image/png") /\
  match compressImage mode quality targetSizeKB outputFormat fileType with
  | lossless => m = image_png
  | searched targetBytes m' =>
      mode = target_size /\ m' = m /\ m <> image_png /\
      targetBytes = (targetSizeKB * 1024)%Z
  | atQuality q m' =>
      mode = quality_mode /\ m' = m /\ m <> image_png /\
      (q == inject_Z quality / 100)%Q
  end.
Proof.
  cbv zeta. unfold compressImage, downloadExtension, mimeTypeOf.
  destruct outputFormat.
  - repeat split; try discriminate; try (intros [H _]; discriminate).
    destruct mode; repeat split; try discriminate; reflexivity.
  - repeat split; try discriminate; try (intros [H _]; discriminate).
    destruct mode; repeat split; try discriminate; reflexivity.
  - destruct (String.eqb_spec fileType "image/png") as [-> | Hpng].
    + repeat split; reflexivity.
    + destruct (String.eqb_spec fileType "image/webp") as [-> | Hwebp].
      * repeat split; try discriminate; try (intros [_ H]; discriminate).
        destruct mode; repeat split; try discriminate; reflexivity.
      * repeat split; try discriminate; try (intros [_ H]; contradiction).
        destruct mode; repeat split; try discriminate; reflexivity.
Qed.

(** X6.  The percentage shown beside the compressed size tells the truth
    about the direction: it is positive only when the file got smaller,
    negative only when it got larger, never above 100, and 0 when the
    original is empty. *)
Theorem savingsPercent_sign (originalSize compressedSize : Z) :
  (0 <= originalSize)%Z -> (0 <= compressedSize)%Z ->
  let p := savingsPercent originalSize compressedSize in
  ((0 < p)%Z -> (compressedSize < originalSize)%Z) /\
  ((p < 0)%Z -> (originalSize < compressedSize)%Z) /\
  (p <= 100)%Z /\
  (originalSize = 0%Z -> p = 0%Z).
Proof.
  intros Ho Hc. cbv zeta. unfold savingsPercent.
  destruct (originalSize >? 0)%Z eqn:E.
  - apply Z.gtb_lt in E.
    assert (Hoq : (0 < inject_Z originalSize)%Q).
    { change 0%Q with (inject_Z 0). now rewrite <- Zlt_Qlt. }
    assert (Hcq : (0 <= inject_Z compressedSize)%Q).
    { change 0%Q with (inject_Z 0). now rewrite <- Zle_Qle. }
    assert (Et : (inject_Z compressedSize / inject_Z originalSize
                  * inject_Z originalSize == inject_Z compressedSize)%Q)
      by (field; lra).
    set (t := (inject_Z compressedSize / inject_Z originalSize)%Q) in *.
    assert (Ht : (0 <= t)%Q).
    { unfold t. apply Qle_shift_div_l; lra. }
    set (x := ((1 - t) * 100)%Q).
    unfold Math_round.
    pose proof (Qfloor_le (x + (1 # 2))) as F1.
    pose proof (Qlt_floor (x + (1 # 2))) as F2.
    rewrite inject_Z_plus in F2. change (inject_Z 1) with 1%Q in F2.
    set (p := Qfloor (x + (1 # 2))) in *.
    repeat split.
    + intros Hp.
      assert (P : (1 <= inject_Z p)%Q).
      { change 1%Q with (inject_Z 1). rewrite <- Zle_Qle. lia. }
      assert (T1 : (t < 1)%Q) by (unfold x in *; lra).
      assert (L : (inject_Z compressedSize < inject_Z originalSize)%Q).
      { clearbody t p. nra. }
      now rewrite <- Zlt_Qlt in L.
    + intros Hp.
      assert (P : (inject_Z p <= -1)%Q).
      { change (-1)%Q with (inject_Z (-1)). rewrite <- Zle_Qle. lia. }
      assert (T1 : (1 < t)%Q) by (unfold x in *; lra).
      assert (L : (inject_Z originalSize < inject_Z compressedSize)%Q).
      { clearbody t p. nra. }
      now rewrite <- Zlt_Qlt in L.
    + assert (P : (inject_Z p < inject_Z 101)%Q).
      { change (inject_Z 101) with 101%Q. unfold x in *. lra. }
      rewrite <- Zlt_Qlt in P. lia.
    + lia.
  - repeat split; try lia.
Qed.

Lemma savingsPercent_sign_witness :
  let p := savingsPercent 200000 49843 in
  ((0 < p)%Z -> (49843 < 200000)%Z) /\
  ((p < 0)%Z -> (200000 < 49843)%Z) /\
  (p <= 100)%Z /\
  (200000%Z = 0%Z -> p = 0%Z).
Proof.
  apply (savingsPercent_sign 200000 49843); lia.
Defined.

(** X7.  The budget a freshly loaded file gets, in bytes, is within 512 bytes
    of half its size; under 512 bytes of file it is 0. *)
Theorem defaultTargetSize_is_half (fileSize : Z) :
  (0 <= fileSize)%Z ->
  let targetBytes := (defaultTargetSizeKB fileSize * 1024)%Z in
  (fileSize - 1024 < 2 * targetBytes <= fileSize + 1024)%Z /\
  ((fileSize < 512)%Z -> targetBytes = 0%Z).
Proof.
  intros Hs. cbv zeta. unfold defaultTargetSizeKB, Math_round.
  set (x := (inject_Z fileSize / 1024 / 2 + (1 # 2))%Q).
  assert (Ex : (x == inject_Z (fileSize + 1024) / inject_Z 2048)%Q).
  { unfold x. rewrite inject_Z_plus.
    change (inject_Z 1024) with 1024%Q. change (inject_Z 2048) with 2048%Q.
    field. }
  rewrite (Qfloor_comp _ _ Ex), <- Zdiv_Qdiv.
  pose proof (Z.div_mod (fileSize + 1024) 2048 ltac:(lia)) as D.
  pose proof (Z.mod_pos_bound (fileSize + 1024) 2048 ltac:(lia)) as M.
  split; [lia |].
  intros Hsmall.
  rewrite (Z.div_small (fileSize + 1024) 2048) by lia. reflexivity.
Qed.

Lemma defaultTargetSize_is_half_witness :
  let targetBytes := (defaultTargetSizeKB 3145728 * 1024)%Z in
  (3145728 - 1024 < 2 * targetBytes <= 3145728 + 1024)%Z /\
  ((3145728 < 512)%Z -> targetBytes = 0%Z).
Proof.
  apply (defaultTargetSize_is_half 3145728). lia.
Defined.

End CompressPageFacts.

(** ** More on the step-down loop, and the ResizeImage page *)

Module ResizeFacts.

Import Js JsFacts Resampler ResamplerFacts.

(** Halving [k + 1] times in a row, in closed form. *)
Lemma halve_iter (targetW targetH : N) (c : Canvas) (k : nat) :
  Nat.iter (S k) (halve targetW targetH) c
  = {| width := N.max (width c / 2 ^ N.of_nat (S k)) targetW;
       height := N.max (height c / 2 ^ N.of_nat (S k)) targetH |}.
Proof.
  induction k as [| k IH].
  - reflexivity.
  - rewrite Nat.iter_succ, IH. unfold halve. cbn [width height].
    assert (P : forall a t : N,
               N.max (N.max (a / 2 ^ N.of_nat (S k)) t / 2) t
               = N.max (a / 2 ^ N.of_nat (S (S k))) t).
    { intros a t.
      replace (2 ^ N.of_nat (S (S k)))%N with (2 ^ N.of_nat (S k) * 2)%N
        by (rewrite (Nat2N.inj_succ (S k)), N.pow_succ_r'; lia).
      rewrite <- N.Div0.div_div.
      set (q := (a / 2 ^ N.of_nat (S k))%N).
      assert (Ht : (t / 2 <= t)%N) by (apply N.Div0.div_le_upper_bound; lia).
      destruct (N.max_spec q t) as [[Hlt ->] | [Hle ->]].
      - assert (Hq : (q / 2 <= t / 2)%N) by (apply N.Div0.div_le_mono; lia).
        lia.
      - reflexivity. }
    now rewrite !P.
Qed.

(** X16.  The canvases of the loop in closed form: the one of index [k] is the
    source divided by [2 ^ (k + 1)], rounded down, and not below the
    target, side by side. *)
Theorem stepDown_closed_form
    (naturalWidth naturalHeight targetW targetH : N) (k : nat) (c : Canvas) :
  nth_error (fst (resizeImage naturalWidth naturalHeight targetW targetH)) k
  = Some c ->
  c = {| width := N.max (naturalWidth / 2 ^ N.of_nat (S k)) targetW;
         height := N.max (naturalHeight / 2 ^ N.of_nat (S k)) targetH |}.
Proof.
  unfold resizeImage. cbn [fst]. intros Hk.
  destruct (stepDown_run targetW targetH
              {| width := naturalWidth; height := naturalHeight |})
    as (_ & _ & _ & Hnth).
  assert (Hlt : (k < length (stepDown targetW targetH
                    {| width := naturalWidth; height := naturalHeight |}))%nat).
  { apply nth_error_Some. rewrite Hk. discriminate. }
  destruct (Hnth k Hlt) as [_ E]. rewrite E in Hk.
  inversion Hk; subst c. apply halve_iter.
Qed.

Lemma stepDown_closed_form_witness :
  {| width := 512; height := 512 |}
  = {| width := N.max (4096 / 2 ^ N.of_nat 3) 300;
       height := N.max (4096 / 2 ^ N.of_nat 3) 200 |}.
Proof.
  apply (stepDown_closed_form 4096 4096 300 200 2). reflexivity.
Defined.

Lemma pow2_le_log2 (k : nat) (a : N) :
  (2 ^ N.of_nat k <= a)%N -> (k <= N.to_nat (N.log2 a))%nat.
Proof.
  intros H.
  assert (L : (N.log2 (2 ^ N.of_nat k) <= N.log2 a)%N)
    by (apply N.log2_le_mono; exact H).
  rewrite N.log2_pow2 in L by lia. lia.
Qed.

Lemma far_after_halving (targetW targetH : N) (c : Canvas) (k : nat) :
  farFromTarget targetW targetH (Nat.iter (S k) (halve targetW targetH) c) = true ->
  (2 ^ N.of_nat (S k) <= N.max (width c) (height c))%N.
Proof.
  rewrite halve_iter. unfold farFromTarget. cbn [width height].
  intros H. apply orb_true_iff in H.
  assert (P : forall a t : N,
             (t * 2 < N.max (a / 2 ^ N.of_nat (S k)) t)%N ->
             (2 ^ N.of_nat (S k) <= a)%N).
  { intros a t Hlt.
    assert (Hq : (0 < a / 2 ^ N.of_nat (S k))%N) by lia.
    apply N.div_str_pos_iff in Hq; [lia |].
    apply N.pow_nonzero. lia. }
  destruct H as [H | H]; apply N.ltb_lt in H; apply P in H; lia.
Qed.

(** X17.  The loop creates at most [log2 (max width height) + 1] canvases: 13
    for a 4096-pixel source, whatever the target. *)
Theorem stepDown_logarithmic
    (naturalWidth naturalHeight targetW targetH : N) :
  (length (fst (resizeImage naturalWidth naturalHeight targetW targetH))
   <= N.to_nat (N.log2 (N.max naturalWidth naturalHeight)) + 1)%nat.
Proof.
  unfold resizeImage. cbn [fst].
  set (c := {| width := naturalWidth; height := naturalHeight |}).
  destruct (stepDown_run targetW targetH c) as (_ & _ & _ & Hnth).
  destruct (length (stepDown targetW targetH c)) as [| [| n]] eqn:E; try lia.
  destruct (Hnth (S n) ltac:(lia)) as [Hfar _].
  apply far_after_halving in Hfar.
  apply pow2_le_log2 in Hfar. cbn [width height c] in Hfar. lia.
Qed.

(** X18.  When the target is not larger than the source, every pass of the
    resize, the final one included, shrinks: each canvas is no larger
    than the one before it and at least half of it (rounded down), and
    the canvas the final pass reads is between the target and twice the
    target. *)
Theorem stepDown_passes_at_most_2_to_1
    (naturalWidth naturalHeight targetW targetH : N) :
  (targetW <= naturalWidth)%N -> (targetH <= naturalHeight)%N ->
  let source := {| width := naturalWidth; height := naturalHeight |} in
  let steps := fst (resizeImage naturalWidth naturalHeight targetW targetH) in
  (forall k a b,
     nth_error (source :: steps) k = Some a ->
     nth_error (source :: steps) (S k) = Some b ->
     (width b <= width a <= 2 * width b + 1)%N /\
     (height b <= height a <= 2 * height b + 1)%N) /\
  (targetW <= width (last steps source) <= 2 * targetW)%N /\
  (targetH <= height (last steps source) <= 2 * targetH)%N.
Proof.
  intros HW HH. cbv zeta. unfold resizeImage. cbn [fst].
  set (c := {| width := naturalWidth; height := naturalHeight |}).
  destruct (stepDown_run targetW targetH c) as (_ & Hall & Hlast & Hnth).
  assert (Hsrc : (targetW <= width c)%N /\ (targetH <= height c)%N)
    by (split; assumption).
  assert (Hall' : Forall (fun i => (targetW <= width i)%N /\ (targetH <= height i)%N)
                    (c :: stepDown targetW targetH c))
    by (constructor; assumption).
  split.
  - intros k a b Ha Hb.
    assert (Hk : (k < length (stepDown targetW targetH c))%nat).
    { apply nth_error_Some. simpl in Hb. rewrite Hb. discriminate. }
    assert (Eb : b = halve targetW targetH a).
    { destruct (Hnth k Hk) as [_ E]. simpl in Hb. rewrite E in Hb.
      inversion Hb; subst b. simpl. f_equal.
      destruct k as [| k]; simpl in Ha.
      - now inversion Ha.
      - destruct (Hnth k ltac:(lia)) as [_ E']. rewrite E' in Ha.
        now inversion Ha. }
    assert (Hge : (targetW <= width a)%N /\ (targetH <= height a)%N).
    { rewrite Forall_forall in Hall'. apply Hall'.
      eapply nth_error_In. exact Ha. }
    subst b. unfold halve. cbn [width height].
    pose proof (N.div_mod' (width a) 2) as D1.
    pose proof (N.mod_lt (width a) 2 ltac:(lia)) as M1.
    pose proof (N.div_mod' (height a) 2) as D2.
    pose proof (N.mod_lt (height a) 2 ltac:(lia)) as M2.
    destruct Hge as [G1 G2].
    set (wa := width a) in *. set (ha := height a) in *.
    clearbody wa ha. clear - G1 G2 D1 M1 D2 M2.
    set (qw := (wa / 2)%N) in *. set (qh := (ha / 2)%N) in *.
    set (rw := (wa mod 2)%N) in *. set (rh := (ha mod 2)%N) in *.
    clearbody qw qh rw rh. lia.
  - unfold lastCanvas, farFromTarget in Hlast.
    apply orb_false_iff in Hlast. destruct Hlast as [L1 L2].
    apply N.ltb_ge in L1. apply N.ltb_ge in L2.
    assert (Hge : (targetW <= width (last (stepDown targetW targetH c) c))%N /\
                  (targetH <= height (last (stepDown targetW targetH c) c))%N).
    { destruct (stepDown targetW targetH c) as [| x l] eqn:E.
      - exact Hsrc.
      - rewrite Forall_forall in Hall. apply Hall.
        rewrite <- E.
        assert (Hne : stepDown targetW targetH c <> []) by (rewrite E; discriminate).
        destruct (exists_last Hne) as (l' & z & ->).
        rewrite last_last. apply in_or_app. right. now left. }
    lia.
Qed.

Lemma stepDown_passes_at_most_2_to_1_witness :
  let source := {| width := 4096; height := 4096 |} in
  let steps := fst (resizeImage 4096 4096 300 200) in
  (forall k a b,
     nth_error (source :: steps) k = Some a ->
     nth_error (source :: steps) (S k) = Some b ->
     (width b <= width a <= 2 * width b + 1)%N /\
     (height b <= height a <= 2 * height b + 1)%N) /\
  (300 <= width (last steps source) <= 2 * 300)%N /\
  (200 <= height (last steps source) <= 2 * 200)%N.
Proof.
  apply (stepDown_passes_at_most_2_to_1 4096 4096 300 200); lia.
Defined.

End ResizeFacts.

(** ** The size controls of the ResizeImage page *)

Module ResizePageFacts.

Import Js JsFacts ResizePage.





(** For a source higher than wide the same round trip can lose a pixel:
    100 by 300, height 100 typed, gives width 33 and height 99. *)
Example locked_height_portrait :
  let img := {| naturalWidth := 100; naturalHeight := 300 |} in
  let st := imageLoaded
              {| originalImage := None; resizeMode := dimensions;
                 targetWidth := 0; targetHeight := 0; percent := 100;
                 lockAspectRatio := true; selectedPreset := None |} img in
  let st' := handleHeightChange st 100 in
  targetHeight st' = 100%Z /\
  getEffectiveDimensions st' = (33, 99)%Z.
Proof. vm_compute. split; reflexivity. Qed.

Lemma Math_round_percent (a p : Z) :
  Math_round (inject_Z a * (inject_Z p / 100)) = ((a * p + 50) / 100)%Z.
Proof.
  unfold Math_round. rewrite (Zdiv_Qdiv (a * p + 50) 100).
  apply Qfloor_comp.
  rewrite inject_Z_plus, inject_Z_mult.
  change (inject_Z 50) with 50. change (inject_Z 100) with 100. field.
Qed.

(** X20.  Percentage mode: 100 gives the size of the source; up to 100 the
    result is never larger than the source and is not flagged as
    upscaling; a side comes out as 0, and the resize is then not done at
    all, exactly when the side times the percentage is under 50. *)
Theorem percentage_mode (st : State) (img : Image) :
  originalImage st = Some img -> resizeMode st = percentage ->
  (0 < naturalWidth img)%Z -> (0 < naturalHeight img)%Z ->
  (0 <= percent st)%Z ->
  let W := naturalWidth img in
  let H := naturalHeight img in
  let '(w, h) := getEffectiveDimensions st in
  (percent st = 100%Z -> w = W /\ h = H) /\
  ((percent st <= 100)%Z ->
   (w <= W)%Z /\ (h <= H)%Z /\ isUpscaling st = false) /\
  ((0 < w)%Z <-> (50 <= W * percent st)%Z) /\
  ((0 < h)%Z <-> (50 <= H * percent st)%Z) /\
  (processResize st = None <->
   (W * percent st < 50)%Z \/ (H * percent st < 50)%Z).
Proof.
  intros Himg Hmode HW HH Hp. cbv zeta.
  unfold processResize, isUpscaling. unfold getEffectiveDimensions.
  rewrite Himg, Hmode. rewrite !Math_round_percent. cbn [fst].
  set (p := percent st) in *.
  set (W := naturalWidth img) in *. set (H := naturalHeight img) in *.
  pose proof (Z.div_mod (W * p + 50) 100 ltac:(lia)) as D1.
  pose proof (Z.mod_pos_bound (W * p + 50) 100 ltac:(lia)) as M1.
  pose proof (Z.div_mod (H * p + 50) 100 ltac:(lia)) as D2.
  pose proof (Z.mod_pos_bound (H * p + 50) 100 ltac:(lia)) as M2.
  set (w := ((W * p + 50) / 100)%Z) in *.
  set (h := ((H * p + 50) / 100)%Z) in *.
  set (rw := ((W * p + 50) mod 100)%Z) in *.
  set (rh := ((H * p + 50) mod 100)%Z) in *.
  assert (Hw0 : (0 < w)%Z <-> (50 <= W * p)%Z) by (clearbody w rw; nia).
  assert (Hh0 : (0 < h)%Z <-> (50 <= H * p)%Z) by (clearbody h rh; nia).
  split; [| split; [| split; [exact Hw0 | split; [exact Hh0 |]]]].
  - intros E. rewrite E in *. clearbody w h rw rh. lia.
  - intros Hle.
    assert (Lw : (w <= W)%Z) by (clearbody w rw; nia).
    assert (Lh : (h <= H)%Z) by (clearbody h rh; nia).
    split; [exact Lw |]. split; [exact Lh |].
    unfold gtb. apply not_true_is_false. intros Hlt. apply ltb_true in Hlt.
    assert (HWq : 0 < inject_Z W) by (apply FitExtra.inject_Z_pos; exact HW).
    assert (Q : inject_Z w <= inject_Z W) by (now rewrite <- Zle_Qle).
    assert (E : inject_Z w / inject_Z W * inject_Z W == inject_Z w)
      by (field; lra).
    set (t := inject_Z w / inject_Z W) in *. clearbody t. nra.
  - destruct ((w >? 0) && (h >? 0))%Z eqn:E.
    + apply andb_true_iff in E. destruct E as [E1 E2].
      apply Z.gtb_lt in E1. apply Z.gtb_lt in E2.
      split; [discriminate |]. intros [C | C]; tauto || lia.
    + split; [| reflexivity]. intros _.
      apply andb_false_iff in E.
      destruct E as [E | E]; rewrite Z.gtb_ltb in E; apply Z.ltb_ge in E;
        [left | right]; lia.
Qed.

Lemma percentage_mode_witness :
  let img := {| naturalWidth := 1920; naturalHeight := 1080 |} in
  let st := handlePercentageChange
              (imageLoaded
                 {| originalImage := None; resizeMode := dimensions;
                    targetWidth := 0; targetHeight := 0; percent := 100;
                    lockAspectRatio := true; selectedPreset := None |} img)
              50 in
  let '(w, h) := getEffectiveDimensions st in
  (percent st = 100%Z -> w = 1920%Z /\ h = 1080%Z) /\
  ((percent st <= 100)%Z ->
   (w <= 1920)%Z /\ (h <= 1080)%Z /\ isUpscaling st = false) /\
  ((0 < w)%Z <-> (50 <= 1920 * percent st)%Z) /\
  ((0 < h)%Z <-> (50 <= 1080 * percent st)%Z) /\
  (processResize st = None <->
   (1920 * percent st < 50)%Z \/ (1080 * percent st < 50)%Z).
Proof.
  apply (percentage_mode
           (handlePercentageChange
              (imageLoaded
                 {| originalImage := None; resizeMode := dimensions;
                    targetWidth := 0; targetHeight := 0; percent := 100;
                    lockAspectRatio := true; selectedPreset := None |}
                 {| naturalWidth := 1920; naturalHeight := 1080 |})
              50)
           {| naturalWidth := 1920; naturalHeight := 1080 |});
    try reflexivity.
  discriminate.
Defined.

End ResizePageFacts.

(** ** More on the crop page: preview scale, clicks, presets, rotation,
    extraction *)

Module CropExtra.

Import Js JsFacts Crop CropFacts.









(** Why the floor of 50 is asked for: under 9:16 the bottom clamp can
    leave a rectangle 28.125 wide, and a click on its [sw] handle, without
    any movement, then shifts it to the left. *)
Example click_on_narrow_rectangle :
  let tall := {| name := "9:16"%string; ratio := Some (9 / 16) |} in
  let st := run (session sample tall)
              [MouseDown 0 0 (Some ne); MouseMove 0 380; MouseUp;
               MouseDown 0 0 (Some ne); MouseMove 0 380; MouseUp] in
  let st' := run st [MouseDown 7 7 (Some sw); MouseMove 7 7] in
  x (cropArea st) == 275 /\ width (cropArea st) == 225 # 8 /\
  height (cropArea st) == 50 /\
  x (cropArea st') == 2025 # 8 /\ width (cropArea st') == 225 # 8.
Proof. vm_compute. repeat split; reflexivity. Qed.

(** X23.  [handlePresetChange] shrinks a rectangle that lies inside the image
    about its centre: the new rectangle has the same centre, the new
    ratio, and lies inside the old one, so the clamps to the image never
    move it. *)
Theorem presetCropArea_about_centre (img : Image) (c : CropArea) (r : Q) :
  0 < r -> anchored c ->
  contained (inject_Z (naturalWidth img)) (inject_Z (naturalHeight img)) c ->
  let c' := presetCropArea img c r in
  x c' + width c' / 2 == x c + width c / 2 /\
  y c' + height c' / 2 == y c + height c / 2 /\
  x c <= x c' /\ x c' + width c' <= x c + width c /\
  y c <= y c' /\ y c' + height c' <= y c + height c /\
  (width c' == width c \/ height c' == height c).
Proof.
  intros Hr (Hx & Hy & Hw & Hh) (_ & _ & Hcw & Hch).
  unfold presetCropArea, gtb.
  set (W := inject_Z (naturalWidth img)) in *.
  set (H := inject_Z (naturalHeight img)) in *.
  clearbody W H.
  js_case_ltb r (width c / height c); cbv zeta; unfold_area.
  - pose proof (mul_lt_of_lt_div _ _ _ Hh Hlt) as Hsmall.
    assert (Hpos : 0 < height c * r) by nra.
    set (nw := height c * r) in *. clearbody nw.
    halves. js_cases; repeat split; try lra; right; lra.
  - pose proof (div_le_of_div_le _ _ _ Hh Hr Hlt) as Hsmall.
    pose proof (div_pos _ _ Hw Hr) as Hpos.
    set (nh := width c / r) in *. clearbody nh.
    halves. js_cases; repeat split; try lra; left; lra.
Qed.

Lemma presetCropArea_about_centre_witness :
  let c := {| x := 100; y := 200; width := 600; height := 300 |} in
  let c' := presetCropArea sample c 1 in
  x c' + width c' / 2 == x c + width c / 2 /\
  y c' + height c' / 2 == y c + height c / 2 /\
  x c <= x c' /\ x c' + width c' <= x c + width c /\
  y c <= y c' /\ y c' + height c' <= y c + height c /\
  (width c' == width c \/ height c' == height c).
Proof.
  apply (presetCropArea_about_centre sample
           {| x := 100; y := 200; width := 600; height := 300 |} 1).
  - reflexivity.
  - vm_compute. repeat split; reflexivity || discriminate.
  - vm_compute. repeat split; discriminate.
Defined.

(** X24.  The rectangle a session starts with is centred in the image, stays
    within 80% of each side, and reaches 80% of at least one side. *)
Theorem initialCropArea_centred (img : Image) (presetRatio : option Q) :
  (0 < naturalWidth img)%Z -> (0 < naturalHeight img)%Z ->
  validRatio presetRatio ->
  let W := inject_Z (naturalWidth img) in
  let H := inject_Z (naturalHeight img) in
  let c := initialCropArea img presetRatio in
  x c + width c / 2 == W / 2 /\ y c + height c / 2 == H / 2 /\
  width c <= W * (8 # 10) /\ height c <= H * (8 # 10) /\
  (width c == W * (8 # 10) \/ height c == H * (8 # 10)).
Proof.
  intros HW HH Hvalid. cbv zeta.
  pose proof (FitExtra.inject_Z_pos _ HW) as HWq.
  pose proof (FitExtra.inject_Z_pos _ HH) as HHq.
  unfold initialCropArea. rewrite (truthy_valid _ Hvalid).
  set (W := inject_Z (naturalWidth img)) in *.
  set (H := inject_Z (naturalHeight img)) in *.
  clearbody W H.
  destruct presetRatio as [r |]; simpl in Hvalid.
  - unfold gtb.
    assert (HcW : 0 < W * (8 # 10)) by lra.
    assert (HcH : 0 < H * (8 # 10)) by lra.
    set (cw := W * (8 # 10)) in *. set (ch := H * (8 # 10)) in *.
    js_case_ltb r (cw / ch); cbv zeta; unfold_area.
    + pose proof (mul_lt_of_lt_div _ _ _ HcH Hlt) as Hsmall.
      set (nw := ch * r) in *. clearbody nw. halves.
      repeat split; try lra; right; lra.
    + pose proof (div_le_of_div_le _ _ _ HcH Hvalid Hlt) as Hsmall.
      set (nh := cw / r) in *. clearbody nh. halves.
      repeat split; try lra; left; lra.
  - unfold_area. halves. repeat split; try lra; left; lra.
Qed.

Lemma initialCropArea_centred_witness :
  let c := initialCropArea sample (Some (16 / 9)) in
  x c + width c / 2 == inject_Z 1000 / 2 /\
  y c + height c / 2 == inject_Z 1000 / 2 /\
  width c <= inject_Z 1000 * (8 # 10) /\
  height c <= inject_Z 1000 * (8 # 10) /\
  (width c == inject_Z 1000 * (8 # 10) \/
   height c == inject_Z 1000 * (8 # 10)).
Proof.
  apply (initialCropArea_centred sample (Some (16 / 9))); reflexivity.
Defined.

(** Pointer moves outside a gesture do nothing: after the button is
    released (or the pointer has left the canvas) no sequence of moves
    changes the state. *)
Theorem moves_outside_gesture_do_nothing (st : State) (moves : list (Q * Q)) :
  run (handleMouseUp st) (map (fun m => MouseMove (fst m) (snd m)) moves)
  = handleMouseUp st.
Proof.
  induction moves as [| m moves IH]; [reflexivity |].
  simpl map. simpl run. unfold run in IH.
  replace (handleMouseMove (handleMouseUp st) (fst m) (snd m))
    with (handleMouseUp st) by reflexivity.
  exact IH.
Qed.

(** The sum of the degrees of the rotate commands of a session. *)
Fixpoint turned (events : list Event) : Z :=
  match events with
  | [] => 0
  | Rotate degrees :: rest => degrees + turned rest
  | _ :: rest => turned rest
  end.

Lemma run_cons (st : State) (e : Event) (rest : list Event) :
  run st (e :: rest) = run (step st e) rest.
Proof. reflexivity. Qed.

Lemma rem_congruent (a : Z) : (Z.rem a 360 mod 360 = a mod 360)%Z.
Proof.
  pose proof (Z.quot_rem' a 360) as E.
  rewrite E at 2.
  rewrite Z.add_comm, Z.mul_comm. now rewrite Z.mod_add by lia.
Qed.

Lemma rem_bounded (a : Z) : (-360 < Z.rem a 360 < 360)%Z.
Proof.
  pose proof (Z.rem_bound_abs a 360 ltac:(lia)) as H.
  change (Z.abs 360) with 360%Z in H. lia.
Qed.

Lemma run_turned (events : list Event) :
  forall st,
  (rotation (run st events) mod 360
   = (rotation st + turned events) mod 360)%Z.
Proof.
  induction events as [| e rest IH]; intros st.
  - simpl. now rewrite Z.add_0_r.
  - rewrite run_cons, IH, step_rotation.
    destruct e; simpl turned; try reflexivity.
    rewrite Z.add_mod, rem_congruent, <- Z.add_mod by lia.
    f_equal. lia.
Qed.

(** X25.  Rotation by steps of any size: the stored angle is the sum of all the
    steps up to a multiple of 360, and stays strictly between -360 and
    360. *)
Theorem rotation_is_sum_modulo_360
    (img : Image) (preset : AspectRatioPreset) (events : list Event) :
  let r := rotation (run (session img preset) events) in
  (r mod 360 = turned events mod 360)%Z /\ (-360 < r < 360)%Z.
Proof.
  cbv zeta. split.
  - rewrite run_turned. reflexivity.
  - destruct (rev events) as [| e rest] eqn:E.
    + apply (f_equal (@rev Event)) in E. rewrite rev_involutive in E.
      subst events. simpl. lia.
    + apply (f_equal (@rev Event)) in E. rewrite rev_involutive in E.
      subst events. simpl rev. unfold run. rewrite fold_left_app.
      simpl fold_left. rewrite step_rotation.
      set (st := fold_left step (rev rest) (session img preset)).
      assert (Hst : (-360 < rotation st < 360)%Z).
      { clear e. subst st. generalize (rev rest). intros l.
        induction l as [| e l IH] using rev_ind; [simpl; lia |].
        rewrite fold_left_app. simpl fold_left. rewrite step_rotation.
        destruct e; try exact IH. apply rem_bounded. }
      destruct e; try exact Hst. apply rem_bounded.
Qed.

(** The number of rotate commands of a session. *)
Fixpoint rotateCount (events : list Event) : nat :=
  match events with
  | [] => O
  | Rotate _ :: rest => S (rotateCount rest)
  | _ :: rest => rotateCount rest
  end.

(** The angles after an even and after an odd number of quarter turns. *)
Definition parityClass (odd : bool) (r : Z) : Prop :=
  if odd then In r [-270; -90; 90; 270]%Z else In r [-180; 0; 180]%Z.

Lemma parityClass_step (odd : bool) (r d : Z) :
  parityClass odd r -> d = 90%Z \/ d = (-90)%Z ->
  parityClass (negb odd) (Z.rem (r + d) 360).
Proof.
  unfold parityClass. intros Hr Hd.
  destruct odd; simpl in Hr |- *;
    repeat (destruct Hr as [<- | Hr];
            [destruct Hd as [-> | ->]; vm_compute; tauto |]);
    destruct Hr.
Qed.

Lemma run_parity (events : list Event) :
  (forall d, In (Rotate d) events -> d = 90%Z \/ d = (-90)%Z) ->
  forall st odd,
  parityClass odd (rotation st) ->
  parityClass (xorb odd (Nat.odd (rotateCount events)))
              (rotation (run st events)).
Proof.
  induction events as [| e rest IH]; intros Hd st odd Hp.
  - simpl. now rewrite xorb_false_r.
  - assert (Hd' : forall d, In (Rotate d) rest -> d = 90%Z \/ d = (-90)%Z)
      by (intros d Hin; apply Hd; now right).
    rewrite run_cons.
    destruct e as [cx cy handle | cx cy | | p | degrees];
      try (simpl rotateCount; apply (IH Hd'); rewrite step_rotation; exact Hp).
    simpl rotateCount. rewrite Nat.odd_succ, <- Nat.negb_odd.
    replace (xorb odd (negb (Nat.odd (rotateCount rest))))
      with (xorb (negb odd) (Nat.odd (rotateCount rest)))
      by (destruct odd, (Nat.odd (rotateCount rest)); reflexivity).
    apply (IH Hd'). rewrite step_rotation.
    apply parityClass_step; [exact Hp |]. apply Hd. now left.
Qed.

Lemma run_originalImage (events : list Event) (img : Image) :
  forall st, originalImage st = Some img ->
  originalImage (run st events) = Some img.
Proof.
  induction events as [| e rest IH]; intros st0 H0; [exact H0 |].
  rewrite run_cons. apply IH.
  destruct e as [cx cy handle | cx cy | | p | degrees]; simpl; try exact H0.
  - unfold handleMouseMove.
    destruct (negb (isDragging st0) && _); [exact H0 |].
    rewrite H0. destruct (isDragging st0); [exact H0 |].
    destruct (isResizing st0); exact H0.
  - unfold initCropEffect, handlePresetChange. rewrite H0.
    destruct (truthy (ratio p)),
      (sameRatio (ratio (selectedPreset st0)) (ratio p)); simpl;
      reflexivity.
Qed.

(** X26.  With quarter turns, whatever their directions: after an odd number
    of them the rotated canvas of the extraction has the sides of the
    image swapped; after an even number it keeps them, or there is no
    rotated canvas at all when the turns cancel out. *)
Theorem rotated_canvas_by_parity
    (img : Image) (preset : AspectRatioPreset) (events : list Event) :
  (forall d, In (Rotate d) events -> d = 90%Z \/ d = (-90)%Z) ->
  let st := run (session img preset) events in
  let W := naturalWidth img in
  let H := naturalHeight img in
  exists e,
    handleCropAndDownload st = Some e /\
    (Nat.odd (rotateCount events) = true -> rotatedCanvas e = Some (H, W)) /\
    (Nat.odd (rotateCount events) = false ->
     (rotation st = 0%Z /\ rotatedCanvas e = None) \/
     (rotation st <> 0%Z /\ rotatedCanvas e = Some (W, H))).
Proof.
  intros Hd. cbv zeta.
  pose proof (run_parity events Hd (session img preset) false) as Hp.
  specialize (Hp ltac:(simpl; tauto)). rewrite xorb_false_l in Hp.
  assert (Himg : originalImage (run (session img preset) events) = Some img)
    by (apply run_originalImage; reflexivity).
  unfold handleCropAndDownload. rewrite Himg.
  eexists. split; [reflexivity |]. cbn [rotatedCanvas].
  unfold parityClass in Hp.
  destruct (Nat.odd (rotateCount events)); simpl in Hp; split;
    try discriminate; intros _.
  - repeat (destruct Hp as [<- | Hp]; [reflexivity |]). destruct Hp.
  - destruct Hp as [<- | [<- | [<- | []]]].
    + right. split; [discriminate | reflexivity].
    + left. split; reflexivity.
    + right. split; [discriminate | reflexivity].
Qed.

Lemma rotated_canvas_by_parity_witness :
  let events := [Rotate 90; MouseDown 0 0 None; Rotate (-90); Rotate (-90)] in
  let st := run (session sample free) events in
  exists e,
    handleCropAndDownload st = Some e /\
    (Nat.odd (rotateCount events) = true ->
     rotatedCanvas e = Some (1000, 1000)%Z) /\
    (Nat.odd (rotateCount events) = false ->
     (rotation st = 0%Z /\ rotatedCanvas e = None) \/
     (rotation st <> 0%Z /\ rotatedCanvas e = Some (1000, 1000)%Z)).
Proof.
  apply (rotated_canvas_by_parity sample free
           [Rotate 90; MouseDown 0 0 None; Rotate (-90); Rotate (-90)]).
  intros d Hin. simpl in Hin.
  repeat (destruct Hin as [Hin | Hin];
          [try discriminate; injection Hin as <-; tauto |]).
  destruct Hin.
Defined.

Lemma Math_round_ge_Z (x : Q) (n : Z) :
  inject_Z n <= x -> (n <= Math_round x)%Z.
Proof.
  intros H. unfold Math_round.
  rewrite <- (Qfloor_Z n) at 1. apply Qfloor_resp_le. lra.
Qed.

(** X27.  The output of the extraction is never larger than the image, at any
    point of a session: its canvas is between 0 and the side of the image
    in each direction, and at least 50 by 50 with the free-form preset
    when 80% of the image is. *)
Theorem extraction_fits_image
    (img : Image) (preset : AspectRatioPreset) (events : list Event) :
  (0 < naturalWidth img)%Z -> (0 < naturalHeight img)%Z ->
  validRatio (ratio preset) ->
  wellFormed (session img preset) events = true ->
  let st := run (session img preset) events in
  let W := naturalWidth img in
  let H := naturalHeight img in
  exists e,
    handleCropAndDownload st = Some e /\
    (0 <= canvasWidth e)%Z /\ (0 <= canvasHeight e)%Z /\
    match ratio (selectedPreset st) with
    | Some _ => (canvasWidth e <= W)%Z /\ (canvasHeight e <= H)%Z
    | None =>
        (63 <= W)%Z -> (63 <= H)%Z ->
        (50 <= canvasWidth e <= W)%Z /\ (50 <= canvasHeight e <= H)%Z
    end.
Proof.
  intros HW HH Hvalid Hwf. cbv zeta.
  destruct (Inv_run img events HW HH _ (Inv_session img preset HW HH Hvalid) Hwf)
    as (Himg & _ & [(Hx & Hy & Hw & Hh) Hs] & _).
  unfold handleCropAndDownload. rewrite Himg.
  eexists. split; [reflexivity |]. cbn [canvasWidth canvasHeight].
  set (c := cropArea (run (session img preset) events)) in *.
  split; [apply Math_round_nonneg; lra |].
  split; [apply Math_round_nonneg; lra |].
  destruct (ratio (selectedPreset (run (session img preset) events))).
  - destruct Hs as [(_ & _ & A & B) _].
    split; apply Math_round_le_Z; lra.
  - intros B1 B2.
    assert (Q1 : 50 <= inject_Z (naturalWidth img) * (8 # 10)).
    { assert (T : inject_Z 63 <= inject_Z (naturalWidth img))
        by (now rewrite <- Zle_Qle).
      change (inject_Z 63) with 63 in T. lra. }
    assert (Q2 : 50 <= inject_Z (naturalHeight img) * (8 # 10)).
    { assert (T : inject_Z 63 <= inject_Z (naturalHeight img))
        by (now rewrite <- Zle_Qle).
      change (inject_Z 63) with 63 in T. lra. }
    destruct (Hs Q1 Q2) as [(_ & _ & A & B) [C D]].
    repeat split;
      try (apply Math_round_le_Z; lra);
      try (apply (Math_round_ge_Z _ 50); change (inject_Z 50) with 50; lra).
Qed.

Lemma extraction_fits_image_witness :
  let st := run (session sample wide) sampleEvents in
  exists e,
    handleCropAndDownload st = Some e /\
    (0 <= canvasWidth e)%Z /\ (0 <= canvasHeight e)%Z /\
    match ratio (selectedPreset st) with
    | Some _ => (canvasWidth e <= 1000)%Z /\ (canvasHeight e <= 1000)%Z
    | None =>
        (63 <= 1000)%Z -> (63 <= 1000)%Z ->
        (50 <= canvasWidth e <= 1000)%Z /\ (50 <= canvasHeight e <= 1000)%Z
    end.
Proof.
  apply (extraction_fits_image sample wide sampleEvents); reflexivity.
Defined.

End CropExtra.
